(** * bottle-photos: tag derivation and the operation pipeline

    A shallow embedding of

    - [illuminatus/metadata.py]: [get_timestamp],
      [_round_to_most_significant_digits], [gen_metadata_tags],
      [gen_datetime_tags];
    - [lmj/media/photos.py]: the [Photo] mutators, [_add_op], [_apply_op],
      the rendering loop of [get_image], [_crop_after_rotate],
      [read_exif_tags], [thumb_path], and the older [datetime_tag_set], time
      stamp and path tags of [create];
    - [lmj/photos/commands/retag.py]: the tags that [main] stores for a
      photo.

    Conventions of the model.  Python [int] is [Z].  A [float] that is
    stored, printed or compared is the rational number ([Q]) it stands for,
    and sums, products and quotients of such numbers are exact.  Where the
    result of the code depends on the rounding, the arithmetic is that of
    IEEE binary64: the remainder [% 360] of [rotate] rounds its sum, and
    the rotation geometry computes on binary64 numbers ([spec_float] with
    53 bits), with [math.cos] and [math.sin] left to the C library.
    A [str] is a [string] of ASCII characters.  A [dict] with string keys
    is a [gmap string _].  A raised exception is the [Raise] case of
    [Result].  What the operating system and the libraries do is a
    parameter of the model: [os.path.getmtime], [arrow.get], the parsing
    and printing of numbers, the imaging library. *)

From Stdlib Require Import ZArith QArith Qround Qabs Lia Lqa Psatz SpecFloat.
From Stdlib Require Import String Ascii List DecimalString DecimalPos.
From Stdlib Require HexadecimalString HexadecimalN.
From stdpp Require Import gmap strings list sorting.

Local Open Scope string_scope.
Local Open Scope Z_scope.

(** ** The Python run time *)

Module Py.

(** The exceptions the modelled code raises or lets through. *)
Inductive Exn :=
  | ValueError
  | TypeError
  | KeyError
  | IndexError
  | AttributeError
  | ZeroDivisionError
  | OverflowError
  | FileNotFoundError
  | PermissionError
  | NotADirectoryError
  | OSError.

Inductive Result (A : Type) :=
  | Ok (a : A)
  | Raise (e : Exn).
Arguments Ok {A} a.
Arguments Raise {A} e.

#[export] Instance Result_ret : MRet Result := fun A a => Ok a.

#[export] Instance Result_bind : MBind Result := fun A B k r =>
  match r with
  | Ok a => k a
  | Raise e => Raise e
  end.

Definition is_Ok {A} (r : Result A) : bool :=
  match r with Ok _ => true | Raise _ => false end.

(** The values of a metadata mapping and the scalar parameters of an
    operation: a number or a text. *)
Inductive Value :=
  | VInt (n : Z)
  | VFloat (x : Q)
  | VStr (s : string).

(** A number: an [int] or a [float]. *)
Inductive Num :=
  | Int (n : Z)
  | Float (x : Q).

Definition of_num (n : Num) : Value :=
  match n with
  | Int k => VInt k
  | Float x => VFloat x
  end.

(** *** Characters and strings *)

Definition code (c : ascii) : N := N_of_ascii c.

(** [str.isspace] on the ASCII range. *)
Definition is_space (c : ascii) : bool :=
  let n := code c in
  ((9 <=? n) && (n <=? 13) || (28 <=? n) && (n <=? 32))%N.

Definition is_digit (c : ascii) : bool :=
  let n := code c in ((48 <=? n) && (n <=? 57))%N.

Definition is_upper (c : ascii) : bool :=
  let n := code c in ((65 <=? n) && (n <=? 90))%N.

Definition lower_char (c : ascii) : ascii :=
  if is_upper c then ascii_of_N (code c + 32) else c.

(** [s.lower()] *)
Fixpoint lower (s : string) : string :=
  match s with
  | EmptyString => EmptyString
  | String c s' => String (lower_char c) (lower s')
  end.

(** [s.lstrip()], [s.rstrip()], [s.strip()] *)
Fixpoint lstrip (s : string) : string :=
  match s with
  | EmptyString => EmptyString
  | String c s' => if is_space c then lstrip s' else s
  end.

Fixpoint rstrip (s : string) : string :=
  match s with
  | EmptyString => EmptyString
  | String c s' =>
      match rstrip s' with
      | EmptyString => if is_space c then EmptyString else String c EmptyString
      | t => String c t
      end
  end.

Definition strip (s : string) : string := rstrip (lstrip s).

(** Truthiness of a [str]. *)
Definition nonempty (s : string) : bool :=
  match s with EmptyString => false | _ => true end.

(** [s.startswith(p)] *)
Fixpoint startswith (p s : string) : bool :=
  match p, s with
  | EmptyString, _ => true
  | String a p', String b s' => if Ascii.eqb a b then startswith p' s' else false
  | String _ _, EmptyString => false
  end.

(** [s[n:]] for [n >= 0] *)
Fixpoint drop_str (n : nat) (s : string) : string :=
  match n, s with
  | O, _ => s
  | S n', String _ s' => drop_str n' s'
  | S _, EmptyString => EmptyString
  end.

(** [s[:n]] for [n >= 0] *)
Fixpoint take_str (n : nat) (s : string) : string :=
  match n, s with
  | S n', String c s' => String c (take_str n' s')
  | _, _ => EmptyString
  end.

(** [s.replace(old, '')] for a non-empty [old]: the occurrences of [old]
    are removed left to right, without overlap.  This is also
    [re.sub(old, '', s)] for a pattern of literal characters. *)
Fixpoint remove_all_fuel (fuel : nat) (old s : string) : string :=
  match fuel with
  | O => s
  | S fuel' =>
      match s with
      | EmptyString => EmptyString
      | String c s' =>
          if startswith old s
          then remove_all_fuel fuel' old (drop_str (String.length old) s)
          else String c (remove_all_fuel fuel' old s')
      end
  end.

Definition remove_all (old s : string) : string :=
  remove_all_fuel (String.length s) old s.

(** *** Numbers *)

(** The leading run of decimal digits of a string, and what follows it. *)
Fixpoint span_digits (s : string) : string * string :=
  match s with
  | EmptyString => (EmptyString, EmptyString)
  | String c s' =>
      if is_digit c
      then let '(d, r) := span_digits s' in (String c d, r)
      else (EmptyString, s)
  end.

(** [int(d)] for a string of decimal digits. *)
Fixpoint int_of_digits_acc (acc : Z) (d : string) : Z :=
  match d with
  | EmptyString => acc
  | String c d' => int_of_digits_acc (10 * acc + (Z.of_N (code c) - 48)) d'
  end.

Definition int_of_digits (d : string) : Z := int_of_digits_acc 0 d.

(** [str(n)] for an [int]. *)
Definition str_of_int (n : Z) : string :=
  NilEmpty.string_of_int (Z.to_int n).

(** [len(s)] *)
Definition len (s : string) : Z := Z.of_nat (String.length s).

(** [int(x)] for a [float]: truncation towards zero. *)
Definition trunc (x : Q) : Z := Z.quot (Qnum x) (Z.pos (Qden x)).

(** [round(x)] for a [float]: to the nearest integer, a tie to the even one. *)
Definition round_half_even (x : Q) : Z :=
  let n := Qnum x in
  let d := Z.pos (Qden x) in
  let q := n / d in
  let r := n mod d in
  if 2 * r <? d then q
  else if d <? 2 * r then q + 1
  else if Z.even q then q else q + 1.

(** [10 ** e]: an [int] for [e >= 0], the [float] [1 / 10 ** -e] below. *)
Definition pow10 (e : Z) : Q :=
  if 0 <=? e then inject_Z (10 ^ e) else 1 / inject_Z (10 ^ (- e)).

Definition Qltb (x y : Q) : bool := negb (Qle_bool y x).

(** [x * 2 ** e] *)
Definition scale2 (x : Q) (e : Z) : Q :=
  if 0 <=? e then x * inject_Z (2 ^ e) else x / inject_Z (2 ^ (- e)).

(** The rounding of the binary64 arithmetic: the number of 53 bits nearest
    to [x], a tie going to the even mantissa.  With [2^k <= |x| < 2^(k+1)]
    the mantissa counts units of [2^(k-52)].  The range of the exponent is
    left out. *)
Definition round_double (x : Q) : Q :=
  if Qeq_bool x 0 then 0
  else
    let k0 := Z.log2 (Z.abs (Qnum x)) - Z.log2 (Z.pos (Qden x)) in
    let k := if Qle_bool (scale2 1 k0) (Qabs x) then k0 else k0 - 1 in
    let e := k - 52 in
    let m := round_half_even (scale2 (Qabs x) (- e)) in
    Qred (scale2 (inject_Z (if Qnum x <? 0 then - m else m)) e).

(** What the model leaves to the interpreter: reading a number from text
    and printing a float. *)
Class Runtime := {
  float_of_str : string → Result Q;   (* float(s) *)
  int_of_str : string → Result Z;     (* int(s) *)
  repr_float : Q → string;            (* str(x), '{}'.format(x) *)
}.

(** [str(v)] *)
Definition str `{Runtime} (v : Value) : string :=
  match v with
  | VInt n => str_of_int n
  | VFloat x => repr_float x
  | VStr s => s
  end.

End Py.

Import Py.

(** ** The binary64 numbers

    A [float] of the rotation geometry is a number of IEEE binary64: a
    zero, an infinity, a NaN, or a sign, a mantissa and an exponent.  The
    operations round to the nearest number, a tie going to the even
    mantissa, as the processor does. *)

Module Float64.

Abbreviation float := spec_float.

Definition prec : Z := 53.
Definition emax : Z := 1024.

Definition zero : float := S754_zero false.
Definition one : float := S754_finite false 4503599627370496 (-52).

Definition mul : float → float → float := SFmul prec emax.
Definition add : float → float → float := SFadd prec emax.
Definition sub : float → float → float := SFsub prec emax.
Definition div : float → float → float := SFdiv prec emax.
Definition abs : float → float := SFabs.
Definition neg : float → float := SFopp.

(** [x == y] *)
Definition eqb : float → float → bool := SFeqb.

(** The number nearest to an integer. *)
Definition nearest (n : Z) : float := binary_normalize prec emax n 0 false.

(** [float(n)] for an [int], as the product of an [int] and a [float]
    takes it. *)
Definition of_int (n : Z) : Result float :=
  match nearest n with
  | S754_infinity _ => Raise OverflowError
  | x => Ok x
  end.

(** The number nearest to a rational: the [float] that a rational of the
    model stands for. *)
Definition of_Q (x : Q) : float :=
  let d := S754_finite false (Qden x) 0 in
  match Qnum x with
  | Z0 => zero
  | Zpos n => div (S754_finite false n 0) d
  | Zneg n => div (S754_finite true n 0) d
  end.

(** The value of a number that is finite. *)
Definition to_Q (x : float) : Q :=
  match x with
  | S754_finite s m e => scale2 (inject_Z (if s then Zneg m else Zpos m)) e
  | _ => 0
  end.

(** [int(x)]: towards zero. *)
Definition to_int (x : float) : Result Z :=
  match x with
  | S754_zero _ => Ok 0
  | S754_finite s m e =>
      let n := match e with
               | Zneg k => Z.pos m / 2 ^ Z.pos k
               | _ => Z.pos m * 2 ^ e
               end in
      Ok (if s then - n else n)
  | S754_infinity _ => Raise OverflowError
  | S754_nan => Raise ValueError
  end.

(** [x < 0] *)
Definition negative (x : float) : bool := SFltb x zero.

End Float64.

Declare Scope float64_scope.
Delimit Scope float64_scope with f64.
Infix "*" := Float64.mul : float64_scope.
Infix "+" := Float64.add : float64_scope.
Infix "-" := Float64.sub : float64_scope.
Infix "/" := Float64.div : float64_scope.

(** ** The arrow library, as far as the code uses it

    An [Arrow] is a point of the UTC time line, counted in seconds from
    1970-01-01T00:00:00; the calendar is the proleptic Gregorian one of
    [datetime].  The bounds of [datetime] (years 1 to 9999) and fractions of
    a second are not modelled. *)

Module ArrowLib.

Record Arrow := mkArrow { epoch : Z }.

(** Day number of a civil date, 1970-01-01 being day 0. *)
Definition days_from_civil (y m d : Z) : Z :=
  let y' := if m <=? 2 then y - 1 else y in
  let era := y' / 400 in
  let yoe := y' - era * 400 in
  let mp := if 2 <? m then m - 3 else m + 9 in
  let doy := (153 * mp + 2) / 5 + d - 1 in
  let doe := yoe * 365 + yoe / 4 - yoe / 100 + doy in
  era * 146097 + doe - 719468.

(** The civil date (year, month, day) of a day number. *)
Definition civil_from_days (z : Z) : Z * Z * Z :=
  let z' := z + 719468 in
  let era := z' / 146097 in
  let doe := z' - era * 146097 in
  let yoe := (doe - doe / 1460 + doe / 36524 - doe / 146096) / 365 in
  let doy := doe - (365 * yoe + yoe / 4 - yoe / 100) in
  let mp := (5 * doy + 2) / 153 in
  let d := doy - (153 * mp + 2) / 5 + 1 in
  let m := if mp <? 10 then mp + 3 else mp - 9 in
  let y := yoe + era * 400 in
  (if m <=? 2 then y + 1 else y, m, d).

Definition from_civil (y m d hh mm ss : Z) : Arrow :=
  mkArrow (days_from_civil y m d * 86400 + hh * 3600 + mm * 60 + ss).

Definition day_number (a : Arrow) : Z := epoch a / 86400.

Definition year (a : Arrow) : Z := (civil_from_days (day_number a)).1.1.
Definition month (a : Arrow) : Z := (civil_from_days (day_number a)).1.2.
Definition day (a : Arrow) : Z := (civil_from_days (day_number a)).2.
Definition hour (a : Arrow) : Z := (epoch a mod 86400) / 3600.
Definition minute (a : Arrow) : Z := (epoch a mod 3600) / 60.

(** [a.weekday()]: Monday is 0; day 0 was a Thursday. *)
Definition weekday (a : Arrow) : Z := (day_number a + 3) mod 7.

(** [a.shift(minutes=n)] *)
Definition shift_minutes (a : Arrow) (n : Z) : Arrow :=
  mkArrow (epoch a + 60 * n).

(** [arrow.get(x)] for a POSIX time stamp. *)
Definition of_timestamp (x : Q) : Arrow := mkArrow (Qfloor x).

(** [arrow.get('1000-01-01 00:00:00')] *)
Definition sentinel : Arrow := from_civil 1000 1 1 0 0 0.

(** *** Formatting, in the English locale *)

Definition month_names : list string :=
  ["January"; "February"; "March"; "April"; "May"; "June"; "July";
   "August"; "September"; "October"; "November"; "December"].

Definition day_names : list string :=
  ["Monday"; "Tuesday"; "Wednesday"; "Thursday"; "Friday"; "Saturday";
   "Sunday"].

(** [a.format('MMMM')] *)
Definition format_MMMM (a : Arrow) : string :=
  default "" (month_names !! Z.to_nat (month a - 1)).

(** [a.format('dddd')] *)
Definition format_dddd (a : Arrow) : string :=
  default "" (day_names !! Z.to_nat (weekday a)).

Definition ordinal_suffix (n : Z) : string :=
  let r := n mod 100 in
  if (r =? 11) || (r =? 12) || (r =? 13) then "th"
  else match n mod 10 with
       | 1 => "st"
       | 2 => "nd"
       | 3 => "rd"
       | _ => "th"
       end.

(** [a.format('Do')] *)
Definition format_Do (a : Arrow) : string :=
  str_of_int (day a) ++ ordinal_suffix (day a).

(** [a.format('ha')]: the hour on the 12-hour clock and the meridian. *)
Definition ha_of_hour (hr : Z) : string :=
  let h := hr mod 12 in
  str_of_int (if h =? 0 then 12 else h) ++ (if hr <? 12 then "am" else "pm").

Definition format_ha (a : Arrow) : string := ha_of_hour (hour a).

End ArrowLib.

Import ArrowLib.

(** ['{:0wd}'.format(n)] *)
Fixpoint zeros (k : nat) : string :=
  match k with
  | O => ""
  | S k' => String "0" (zeros k')
  end.

Definition format_0d (w : nat) (n : Z) : string :=
  if n <? 0
  then let d := str_of_int (- n) in
       ("-" ++ zeros (w - 1 - String.length d) ++ d)%string
  else let d := str_of_int n in
       (zeros (w - String.length d) ++ d)%string.

(** ** illuminatus/metadata.py *)

Module Metadata.

Definition newline : ascii := ascii_of_N 10.

(** What [.*$] accepts after the digits: no newline, but for a last one. *)
Fixpoint rest_of_line (r : string) : bool :=
  match r with
  | EmptyString => true
  | String c r' =>
      if Ascii.eqb c newline
      then negb (nonempty r')
      else rest_of_line r'
  end.

(** [re.match(r'^(\d+).*$', n)]: group 1 when the pattern matches. *)
Definition match_leading_digits (n : string) : option string :=
  let '(d, r) := span_digits n in
  if nonempty d && rest_of_line r then Some d else None.

(** Line 6, with the two end-anchored patterns of line 80. *)
Inductive Pattern :=
  | Lit (w : string)      (* the characters of [w] *)
  | LitEnd (w : string).  (* [w] followed by [$] *)

Definition _CAMERA_WORD_BLACKLIST : list Pattern :=
  [Lit "canon"; Lit "nikon"; Lit "kodak"; Lit "digital"; Lit "camera";
   Lit "super"; Lit "powershot"].

(** Lines 9-10. *)
Definition _TIMESTAMP_KEYS : list string :=
  ["DateTimeOriginal"; "CreateDate"; "ModifyDate"; "FileModifyDate"].

Definition _TIMESTAMP_FORMATS : list string :=
  ["YYYY-MM-DD HH:mm:ss"; "YYYY:MM:DD HH:mm:ss"].

(** [s.endswith(w)], giving what precedes [w]. *)
Fixpoint strip_suffix (w s : string) : option string :=
  if String.eqb w s then Some EmptyString
  else match s with
       | EmptyString => None
       | String c s' => String c <$> strip_suffix w s'
       end.

(** [re.sub(pattern, '', s)].  [$] matches at the end of the text and
    before a newline that ends it. *)
Definition re_sub_remove (pattern : Pattern) (s : string) : string :=
  match pattern with
  | Lit w => remove_all w s
  | LitEnd w =>
      match strip_suffix w s with
      | Some s' => s'
      | None =>
          match strip_suffix (w ++ String newline "") s with
          | Some s' => s' ++ String newline ""
          | None => s
          end
      end
  end.

(** [re.match(_FLOAT_PATTERN, s)] succeeds. *)
Definition match_float (s : string) : bool :=
  nonempty (span_digits s).1.

(** [re.match(_FLOAT_PATTERN + r'\s*mm', s)]: group 1 when it matches. *)
Definition match_float_mm (s : string) : option string :=
  let '(d, r) := span_digits s in
  if nonempty d then
    let r1 := match r with
              | String "."%char r' =>
                  let '(fd, r'') := span_digits r' in
                  if nonempty fd then r'' else r
              | _ => r
              end in
    if startswith "mm" (lstrip r1) then Some d else None
  else None.

(** A generator that has run to its end: the tags it yielded, in order,
    and the exception that ended it, if one did. *)
Definition Gen (A : Type) : Type := list string * Result A.

#[export] Instance Gen_ret : MRet Gen := fun A a => ([], Ok a).

#[export] Instance Gen_bind : MBind Gen := fun A B k g =>
  match g.2 with
  | Ok a => ((g.1 ++ (k a).1)%list, (k a).2)
  | Raise e => (g.1, Raise e)
  end.

Definition yield (tag : string) : Gen unit := ([tag], Ok tt).
Definition lift {A} (r : Result A) : Gen A := ([], r).
Definition when (b : bool) (g : Gen unit) : Gen unit :=
  if b then g else mret tt.

(** A metadata mapping, or [None]. *)
Abbreviation Meta := (option (gmap string Value)).

(** [if meta]: there is a mapping and it is not empty. *)
Definition truthy (meta : Meta) : bool :=
  match meta with
  | Some m => negb (bool_decide (m = ∅))
  | None => false
  end.

Definition mapping (meta : Meta) : gmap string Value := default ∅ meta.

(** Truthiness of a value. *)
Definition truthy_value (v : Value) : bool :=
  match v with
  | VInt n => negb (n =? 0)
  | VFloat x => negb (Qeq_bool x 0)
  | VStr s => nonempty s
  end.

Section Timestamp.

(** [arrow.get(stamp, formats)]: the time the first format that fits gives,
    or the exception raised. *)
Variable arrow_get : Value → list string → Result Arrow.

(** [os.path.getmtime(path)]: the modification time of the file, or the
    exception of the system call: [FileNotFoundError] when nothing has the
    path, [PermissionError], [NotADirectoryError] or another [OSError] when
    the path cannot be followed, [ValueError] for a path with a null
    character. *)
Variable getmtime : string → Result Q.

(** The loop of lines 31-37 over the keys still to try: [Some r] when the
    function is left with [r] inside the loop, [None] when the loop ends. *)
Fixpoint try_keys (keys : list string) (meta : gmap string Value)
  : option (Result Arrow) :=
  match keys with
  | [] => None
  | key :: keys' =>
      match meta !! key with
      | Some stamp =>
          match arrow_get stamp _TIMESTAMP_FORMATS with
          | Ok t => Some (Ok t)
          | Raise ValueError => try_keys keys' meta
          | Raise e => Some (Raise e)
          end
      | None => try_keys keys' meta
      end
  end.

(** Lines 16-42. *)
Definition get_timestamp (path : string) (meta : Meta) : Result Arrow :=
  match (if truthy meta then try_keys _TIMESTAMP_KEYS (mapping meta)
         else None) with
  | Some r => r
  | None =>
      match getmtime path with
      | Ok t => Ok (of_timestamp t)
      | Raise FileNotFoundError => Ok sentinel
      | Raise e => Raise e
      end
  end.

End Timestamp.

Section Tags.
Context `{Runtime}.

(** Lines 45-59. *)
Definition _round_to_most_significant_digits (n : Value) (digits : Z)
  : Result Z :=
  nint ← match n with
         | VFloat x => Ok (trunc x)
         | VInt k => Ok k
         | VStr s =>
             match match_leading_digits s with
             | Some d => Ok (int_of_digits d)
             | None => Raise ValueError
             end
         end;
  if Qltb (inject_Z nint) (pow10 digits) then Ok nint
  else
    let shift := pow10 (len (str n) - digits) in
    Ok (trunc (shift * inject_Z (round_half_even (inject_Z nint / shift)))).

(** [float(v)] *)
Definition float (v : Value) : Result Q :=
  match v with
  | VInt n => Ok (inject_Z n)
  | VFloat x => Ok x
  | VStr s => float_of_str s
  end.

(** [v.lower()] *)
Definition lower_value (v : Value) : Result string :=
  match v with
  | VStr s => Ok (lower s)
  | _ => Raise AttributeError
  end.

(** The loop of lines 80-81. *)
Definition clean_model (patterns : list Pattern) (model : string) : string :=
  fold_left (fun model pattern => strip (re_sub_remove pattern model))
            patterns model.

(** Lines 79-83. *)
Definition gen_kit_tag (meta : gmap string Value) : Gen unit :=
  model ← lift (lower_value
    (default (default (VStr "") (meta !! "Model"))
             (meta !! "CameraModelName")));
  let model :=
    clean_model (_CAMERA_WORD_BLACKLIST ++ [LitEnd "ed"; LitEnd "is"])%list
                model in
  when (nonempty model) (yield (lower ("kit:" ++ model))).

(** Lines 85-87. *)
Definition gen_aperture_tag (meta : gmap string Value) : Gen unit :=
  let fstop := default (VStr "") (meta !! "FNumber") in
  when (match fstop with VStr s => match_float s | _ => true end)
    (x ← lift (float fstop);
     yield (remove_all ".0"
              ("aperture:f/"
               ++ repr_float (inject_Z (round_half_even (10 * x)) / 10)))).

(** Lines 89-94. *)
Definition gen_focus_tag (meta : gmap string Value) : Gen unit :=
  let highest := fun n => _round_to_most_significant_digits n 1 in
  let mm := default (default (VStr "") (meta !! "FocalLength"))
                    (meta !! "FocalLengthIn35mmFormat") in
  let mm := match mm with
            | VStr s => VStr <$> match_float_mm s
            | _ => Some mm
            end in
  match mm with
  | Some mm =>
      when (truthy_value mm)
        (n ← lift (highest mm);
         yield ("focus:" ++ str_of_int n ++ "mm"))
  | None => mret tt
  end.

(** Lines 62-94. *)
Definition gen_metadata_tags (meta : Meta) : Gen unit :=
  if negb (truthy meta) then mret tt
  else
    let meta := mapping meta in
    gen_kit_tag meta;;
    gen_aperture_tag meta;;
    gen_focus_tag meta.

(** Lines 97-127. *)
Definition gen_datetime_tags (stamp : option Arrow) : list string :=
  match stamp with
  | None => []
  | Some stamp =>
      let hour := shift_minutes stamp 11 in
      [ "y:" ++ format_0d 4 (year stamp);
        lower ("m:" ++ format_0d 2 (month stamp) ++ ":" ++ format_MMMM stamp);
        lower ("d:" ++ format_0d 2 (day stamp) ++ ":" ++ format_Do stamp);
        lower ("w:" ++ str_of_int (weekday stamp) ++ ":" ++ format_dddd stamp);
        lower ("h:" ++ format_0d 2 (ArrowLib.hour hour) ++ ":"
               ++ format_ha hour) ]
  end.

End Tags.

End Metadata.

(** ** os.path on POSIX, as far as the code uses it

    The functions of [posixpath] and the [str.split] that the code calls, on
    paths with [/] as the separator. *)

Module PosixPath.

(** [os.sep] *)
Definition sep : ascii := "/"%char.

(** [(p[:i], p[i:])] for [i = p.rfind(sep) + 1]. *)
Fixpoint split_at_last_sep (p : string) : string * string :=
  match p with
  | EmptyString => (EmptyString, EmptyString)
  | String c p' =>
      let '(head, tail) := split_at_last_sep p' in
      if nonempty head then (String c head, tail)
      else if Ascii.eqb c sep then (String c EmptyString, tail)
      else (EmptyString, String c tail)
  end.

(** [s.rstrip(sep)] *)
Fixpoint rstrip_sep (s : string) : string :=
  match s with
  | EmptyString => EmptyString
  | String c s' =>
      match rstrip_sep s' with
      | EmptyString =>
          if Ascii.eqb c sep then EmptyString else String c EmptyString
      | t => String c t
      end
  end.

(** [s == sep * len(s)] *)
Fixpoint all_sep (s : string) : bool :=
  match s with
  | EmptyString => true
  | String c s' => Ascii.eqb c sep && all_sep s'
  end.

(** [s.endswith(sep)] *)
Fixpoint ends_with_sep (s : string) : bool :=
  match s with
  | EmptyString => false
  | String c EmptyString => Ascii.eqb c sep
  | String _ s' => ends_with_sep s'
  end.

(** [os.path.dirname(p)] *)
Definition dirname (p : string) : string :=
  let head := (split_at_last_sep p).1 in
  if nonempty head && negb (all_sep head) then rstrip_sep head else head.

(** [os.path.basename(p)] *)
Definition basename (p : string) : string := (split_at_last_sep p).2.

(** [os.path.join(a, b)] *)
Definition join (a b : string) : string :=
  if startswith (String sep EmptyString) b then b
  else if negb (nonempty a) || ends_with_sep a then (a ++ b)%string
  else (a ++ String sep b)%string.

(** [s.split(os.sep)] *)
Fixpoint split (s : string) : list string :=
  match s with
  | EmptyString => [EmptyString]
  | String c s' =>
      if Ascii.eqb c sep then EmptyString :: split s'
      else match split s' with
           | x :: r => String c x :: r
           | [] => [String c EmptyString]
           end
  end.

End PosixPath.

(** ** lmj/media/photos.py *)

Module Photos.

(** A parameter of an operation: a scalar, or a list such as a crop box. *)
Inductive Param :=
  | PVal (v : Value)
  | PList (l : list Value).

(** An operation is a [dict]: its ['key'] and its parameters. *)
Abbreviation Op := (gmap string Param).

(** Lines 20-26. *)
Module Ops.
Definition Autocontrast := "autocontrast".
Definition Brightness := "brightness".
Definition Contrast := "contrast".
Definition Crop := "crop".
Definition Rotate := "rotate".
Definition Saturation := "saturation".
End Ops.

(** [op[name]] *)
Definition getitem (op : Op) (name : string) : Result Param :=
  match op !! name with
  | Some p => Ok p
  | None => Raise KeyError
  end.

(** [p == s] for a text [s] *)
Definition is_str (p : Param) (s : string) : bool :=
  match p with
  | PVal (VStr s') => String.eqb s' s
  | _ => false
  end.

(** [n + p] for a number [n] *)
Definition add (n : Num) (p : Param) : Result Num :=
  match n, p with
  | Int a, PVal (VInt b) => Ok (Int (a + b))
  | Int a, PVal (VFloat y) => Ok (Float (inject_Z a + y))
  | Float x, PVal (VInt b) => Ok (Float (x + inject_Z b))
  | Float x, PVal (VFloat y) => Ok (Float (x + y))
  | _, _ => Raise TypeError
  end.

(** [n % 360].  For a [float] the interpreter takes [fmod(x, 360.0)], the
    remainder with the sign of [x], which is exact; to a remainder below
    zero it adds 360.0, and this sum is rounded. *)
Definition mod360 (n : Num) : Num :=
  match n with
  | Int a => Int (a mod 360)
  | Float x =>
      let r := (x - 360 * inject_Z (trunc (x / 360)))%Q in
      Float (if Qltb r 0 then round_double (r + 360) else r)
  end.

(** *** The operation list and its mutators *)

(** A method of [Photo] reads and writes the list [self.ops]; the list
    keeps what was done to it when the method raises. *)
Definition M (A : Type) : Type := list Op → list Op * Result A.

#[export] Instance M_ret : MRet M := fun A a ops => (ops, Ok a).

#[export] Instance M_bind : MBind M := fun A B k m ops =>
  match m ops with
  | (ops', Ok a) => k a ops'
  | (ops', Raise e) => (ops', Raise e)
  end.

Definition get_ops : M (list Op) := fun ops => (ops, Ok ops).
Definition liftM {A} (r : Result A) : M A := fun ops => (ops, r).

(** [self.ops.pop()] *)
Definition pop : M Op := fun ops =>
  match last ops with
  | Some op => (removelast ops, Ok op)
  | None => (ops, Raise IndexError)
  end.

(** [self.ops.append(op)] *)
Definition append (op : Op) : M unit := fun ops => ((ops ++ [op])%list, Ok tt).

Section Mutators.

(** What [_add_op] does once the operation is in the list: the thumbnails
    are rendered again and the record is stored (lines 214-215).  Neither
    touches the list; either may raise. *)
Variable publish : list Op → Result unit.

(** Lines 211-215. *)
Definition _add_op (key : string) (op : Op) : M unit :=
  let op := <["key" := PVal (VStr key)]> op in
  append op;;
  ops ← get_ops;
  liftM (publish ops).

(** Lines 190-194. *)
Definition rotate (degrees : Num) : M unit :=
  ops ← get_ops;
  merge ← match last ops with
           | Some op => key ← liftM (getitem op "key");
                        mret (is_str key Ops.Rotate)
           | None => mret false
           end;
  degrees ← (if merge : bool
              then op ← pop;
                   d ← liftM (getitem op "degrees");
                   liftM (add degrees d)
              else mret degrees);
  _add_op Ops.Rotate {[ "degrees" := PVal (of_num (mod360 degrees)) ]}.

(** Lines 196-209. *)
Definition saturation (level : Num) : M unit :=
  _add_op Ops.Saturation {[ "level" := PVal (of_num level) ]}.

Definition contrast (level : Num) : M unit :=
  _add_op Ops.Contrast {[ "level" := PVal (of_num level) ]}.

Definition brightness (level : Num) : M unit :=
  _add_op Ops.Brightness {[ "level" := PVal (of_num level) ]}.

Definition crop (box : list Num) : M unit :=
  _add_op Ops.Crop {[ "box" := PList (of_num <$> box) ]}.

Definition autocontrast : M unit :=
  _add_op Ops.Autocontrast ∅.

(** A call of one of the mutators. *)
Inductive Call :=
  | call_rotate (degrees : Num)
  | call_crop (box : list Num)
  | call_brightness (level : Num)
  | call_contrast (level : Num)
  | call_saturation (level : Num)
  | call_autocontrast.

Definition call (c : Call) : M unit :=
  match c with
  | call_rotate degrees => rotate degrees
  | call_crop box => crop box
  | call_brightness level => brightness level
  | call_contrast level => contrast level
  | call_saturation level => saturation level
  | call_autocontrast => autocontrast
  end.

(** The list after a sequence of calls, each made whether or not the one
    before it raised. *)
Definition run (calls : list Call) (ops : list Op) : list Op :=
  fold_left (fun ops c => (call c ops).1) calls ops.

End Mutators.

Definition is_rotate (op : Op) : bool :=
  match op !! "key" with
  | Some key => is_str key Ops.Rotate
  | None => false
  end.

(** No rotate operation is followed at once by another. *)
Fixpoint no_adjacent_rotates (ops : list Op) : bool :=
  match ops with
  | op1 :: ops' =>
      match ops' with
      | op2 :: _ => negb (is_rotate op1 && is_rotate op2)
      | [] => true
      end && no_adjacent_rotates ops'
  | [] => true
  end.

(** *** The geometry of a rotation *)

(** [math.cos] and [math.sin]: what the C library returns, which is not the
    same on every system; [ValueError] for an infinite angle.  At 0.0 the
    cosine is 1.0 and the sine is 0.0 on all of them. *)
Class MathLib := {
  cos : Float64.float → Result Float64.float;
  sin : Float64.float → Result Float64.float;
  cos_zero : cos Float64.zero = Ok Float64.one;
  sin_zero : sin Float64.zero = Ok Float64.zero;
}.

(** [math.pi], and the factor [pi / 180.0] of [math.radians]. *)
Definition pi : Float64.float := S754_finite false 0x1921FB54442D18 (-51).

Definition degToRad : Float64.float := (pi / Float64.nearest 180)%f64.

(** [math.radians(t)] *)
Definition radians (t : Param) : Result Float64.float :=
  x ← match t with
      | PVal (VInt n) => Float64.of_int n
      | PVal (VFloat x) => Ok (Float64.of_Q x)
      | _ => Raise TypeError
      end;
  Ok (x * degToRad)%f64.

(** [x / y] on floats *)
Definition divide (x y : Float64.float) : Result Float64.float :=
  if Float64.eqb y Float64.zero then Raise ZeroDivisionError
  else Ok (x / y)%f64.

Section Geometry.
Context `{MathLib}.

(** Lines 273-279: the offsets [a] and [b] and the canvas [W], [H].  The
    sides are [int]s, which each product turns into a [float]. *)
Definition crop_offsets (width height : Z) (angle : Float64.float)
  : Result (Float64.float * Float64.float * Float64.float * Float64.float) :=
  c ← cos angle;
  let C := Float64.abs c in
  s ← sin angle;
  let S := Float64.abs s in
  width ← Float64.of_int width;
  height ← Float64.of_int height;
  let W := (width * C + height * S)%f64 in
  let H := (width * S + height * C)%f64 in
  f ← divide (C * S)%f64 (S * S - C * C)%f64;
  let a := (f * (width * S - height * C))%f64 in
  let b := (f * (height * S - width * C))%f64 in
  Ok (a, b, W, H).

(** Lines 246-280. *)
Definition _crop_after_rotate (width height : Z) (angle : Float64.float)
  : Result (list Z) :=
  '(a, b, W, H) ← crop_offsets width height angle;
  left ← Float64.to_int a;
  top ← Float64.to_int b;
  right ← Float64.to_int (W - a)%f64;
  bottom ← Float64.to_int (H - b)%f64;
  Ok [left; top; right; bottom].

End Geometry.

(** *** Rendering *)

(** The imaging library.  Each transform gets the image and the parameter
    as the operation holds it, and may raise. *)
Class Imaging := {
  Image : Type;
  Enhancer : Type;
  image_size : Image → Z * Z;                        (* img.size *)
  pil_autocontrast : Image → Param → Result Image;   (* autocontrast(img, cutoff) *)
  pil_brightness : Image → Result Enhancer;          (* brightness(img) *)
  pil_contrast : Image → Result Enhancer;            (* contrast(img) *)
  pil_color : Image → Result Enhancer;               (* color(img) *)
  enhance : Enhancer → Param → Result Image;         (* e.enhance(level) *)
  pil_crop : Image → list Z → Result Image;          (* img.crop(box) *)
  pil_rotate : Image → Param → Result Image;         (* img.rotate(t, BICUBIC, expand=1) *)
}.

(** What [_apply_op] writes to the log. *)
Inductive LogRecord :=
  | applying_op (path : string) (op : Op)
  | unknown_image_op (path : string) (op : Op).

(** A step of the rendering: what it logged, and its result. *)
Definition Logged (A : Type) : Type := list LogRecord * Result A.

#[export] Instance Logged_ret : MRet Logged := fun A a => ([], Ok a).

#[export] Instance Logged_bind : MBind Logged := fun A B k m =>
  match m.2 with
  | Ok a => ((m.1 ++ (k a).1)%list, (k a).2)
  | Raise e => (m.1, Raise e)
  end.

Definition log (r : LogRecord) : Logged unit := ([r], Ok tt).
Definition liftL {A} (r : Result A) : Logged A := ([], r).

Section Rendering.
Context `{Runtime} `{Imaging} `{MathLib}.

(** [width * x], [int(v)] *)
Fixpoint repeat_str (k : nat) (s : string) : string :=
  match k with
  | O => ""
  | S k' => s ++ repeat_str k' s
  end.

Definition times (width : Z) (x : Value) : Value :=
  match x with
  | VInt n => VInt (width * n)
  | VFloat y => VFloat (inject_Z width * y)
  | VStr s => VStr (repeat_str (Z.to_nat width) s)
  end.

Definition int (v : Value) : Result Z :=
  match v with
  | VInt n => Ok n
  | VFloat x => Ok (trunc x)
  | VStr s => int_of_str s
  end.

(** [x1, y1, x2, y2 = box] *)
Fixpoint chars (s : string) : list Value :=
  match s with
  | EmptyString => []
  | String c s' => VStr (String c "") :: chars s'
  end.

Definition unpack4 (box : Param) : Result (Value * Value * Value * Value) :=
  match box with
  | PVal (VStr s) =>
      match chars s with
      | [x1; y1; x2; y2] => Ok (x1, y1, x2, y2)
      | _ => Raise ValueError
      end
  | PVal _ => Raise TypeError
  | PList [x1; y1; x2; y2] => Ok (x1, y1, x2, y2)
  | PList _ => Raise ValueError
  end.

(** Lines 217-243. *)
Definition _apply_op (path : string) (img : Image) (op : Op) : Logged Image :=
  log (applying_op path op);;
  key ← liftL (getitem op "key");
  if is_str key Ops.Autocontrast then
    liftL (pil_autocontrast img
             (default (PVal (VFloat (1 # 2))) (op !! "cutoff")))
  else if is_str key Ops.Brightness then
    e ← liftL (pil_brightness img);
    level ← liftL (getitem op "level");
    liftL (enhance e level)
  else if is_str key Ops.Contrast then
    e ← liftL (pil_contrast img);
    level ← liftL (getitem op "level");
    liftL (enhance e level)
  else if is_str key Ops.Saturation then
    e ← liftL (pil_color img);
    level ← liftL (getitem op "level");
    liftL (enhance e level)
  else if is_str key Ops.Crop then
    box ← liftL (getitem op "box");
    '(x1, y1, x2, y2) ← liftL (unpack4 box);
    let '(width, height) := image_size img in
    x1 ← liftL (int (times width x1));
    y1 ← liftL (int (times height y1));
    x2 ← liftL (int (times width x2));
    y2 ← liftL (int (times height y2));
    liftL (pil_crop img [x1; y1; x2; y2])
  else if is_str key Ops.Rotate then
    let '(w, h) := image_size img in
    t ← liftL (getitem op "degrees");
    img ← liftL (pil_rotate img t);
    angle ← liftL (radians t);
    box ← liftL (_crop_after_rotate w h angle);
    liftL (pil_crop img box)
  else
    log (unknown_image_op path op);;
    mret img.

(** Lines 186-188: the operations applied in order to the base image. *)
Fixpoint apply_ops (path : string) (img : Image) (ops : list Op)
  : Logged Image :=
  match ops with
  | [] => mret img
  | op :: ops' => img ← _apply_op path img op; apply_ops path img ops'
  end.

End Rendering.

(** *** Tags from the EXIF fields *)

Section ExifTags.
Context `{Runtime}.

(** [util.normalized_tag_set], which is not part of these sources. *)
Variable normalized_tag_set : gset string → gset string.

(** [float(v)] *)
Definition float (v : Value) : Result Q :=
  match v with
  | VInt n => Ok (inject_Z n)
  | VFloat x => Ok x
  | VStr s => float_of_str s
  end.

(** Lines 112-118. *)
Definition highest (n : Value) (digits : Z) : Result Z :=
  n ← float n;
  if Qltb n (pow10 digits) then Ok (trunc n)
  else
    let shift := pow10 (len (str_of_int (trunc n)) - digits) in
    Ok (trunc (shift * inject_Z (round_half_even (n / shift)))).

(** [s[:-2]] *)
Definition drop_last2 (v : Value) : Result Value :=
  match v with
  | VStr s => Ok (VStr (take_str (String.length s - 2) s))
  | _ => Raise TypeError
  end.

(** Lines 130-139, for a mapping that has the field. *)
Definition shutter_speed_tag (s : Value) : Result string :=
  n ← match s with
      | VInt k => Ok (1000 * k)
      | VFloat x => Ok (trunc (1000 * x))
      | VStr text =>
          if startswith "1/" text
          then d ← float_of_str (drop_str 2 text);
               if Qeq_bool d 0 then Raise ZeroDivisionError
               else Ok (trunc (1000 / d))
          else Raise ValueError
      end;
  h ← highest (VInt n) 1;
  Ok (str_of_int (Z.max 1 h) ++ "ms").

(** Lines 144-149. *)
Definition model_tag (v : Value) : Result (gset string) :=
  match v with
  | VStr s =>
      let t := fold_left
                 (fun t p => strip (Metadata.re_sub_remove p t))
                 (Metadata._CAMERA_WORD_BLACKLIST
                  ++ [Metadata.LitEnd "ed"; Metadata.LitEnd "is"])%list
                 (lower s) in
      Ok (if nonempty t then {[ "kit:" ++ t ]} else ∅)
  | _ => Raise AttributeError
  end.

(** One [if 'Field' in self.exif:] block adding to [tags]. *)
Definition with_field (exif : gmap string Value) (field : string)
    (block : Value → Result (gset string)) (tags : gset string)
  : Result (gset string) :=
  match exif !! field with
  | Some v => new ← block v; Ok (tags ∪ new)
  | None => Ok tags
  end.

(** Lines 107-151. *)
Definition read_exif_tags (exif : gmap string Value) : Result (gset string) :=
  if bool_decide (exif = ∅) then Ok ∅
  else
    let tags : gset string := ∅ in
    tags ← with_field exif "FNumber" (fun v =>
      x ← float v;
      Ok {[ remove_all ".0"
              ("f/" ++ repr_float (inject_Z (round_half_even (2 * x)) / 2)) ]})
      tags;
    tags ← with_field exif "ISO" (fun v =>
      iso ← int v;
      h ← highest (VInt iso) (1 + (if 1000 <? iso then 1 else 0));
      Ok {[ "iso:" ++ str_of_int h ]})
      tags;
    tags ← with_field exif "ShutterSpeed" (fun v =>
      t ← shutter_speed_tag v; Ok {[ t ]})
      tags;
    tags ← with_field exif "FocalLength" (fun v =>
      s ← drop_last2 v;
      h ← highest s 1;
      Ok {[ str_of_int h ++ "mm" ]})
      tags;
    tags ← with_field exif "Model" model_tag tags;
    Ok (normalized_tag_set tags).

End ExifTags.

(** *** The older derivation of the time and of its tags *)

Section Stamp.

(** [datetime.datetime.strptime(text, fmt)], [None] when it raises, and
    [datetime.datetime.now()]. *)
Variable strptime : string → string → option Arrow.
Variable now : Arrow.

(** Lines 285-294.  [raw[:19]] is evaluated inside the [try], so a value
    that is no text is skipped like one that does not fit. *)
Definition compute_timestamp_from (exif : gmap string Value) (key : string)
  : option Arrow :=
  match exif !! key with
  | Some raw =>
      if Metadata.truthy_value raw then
        match raw with
        | VStr text =>
            match strptime (take_str 19 text) "%Y:%m:%d %H:%M:%S" with
            | Some t => Some t
            | None => strptime (take_str 19 text) "%Y:%m:%d %H:%M+%S"
            end
        | _ => None
        end
      else None
  | None => None
  end.

(** Lines 298-304 of [create]. *)
Fixpoint first_stamp (exif : gmap string Value) (keys : list string)
  : option Arrow :=
  match keys with
  | [] => None
  | key :: keys' =>
      match compute_timestamp_from exif key with
      | Some t => Some t
      | None => first_stamp exif keys'
      end
  end.

Definition create_stamp (exif : gmap string Value) : Arrow :=
  default now
    (first_stamp exif
       ["DateTimeOriginal"; "CreateDate"; "ModifyDate"; "FileModifyDate"]).

End Stamp.

Section DatetimeTagSet.

(** [util.normalized_tag_set], which is not part of these sources. *)
Variable normalized_tag_set : list string → gset string.

(** Lines 63-66. *)
Definition ordinal (n : Z) : string :=
  let s := match n mod 10 with
           | 1 => "st"
           | 2 => "nd"
           | 3 => "rd"
           | _ => "th"
           end in
  let s := if (10 <? n) && (n <? 20) then "th" else s in
  str_of_int n ++ s.

(** [s.strip('0')] *)
Fixpoint lstrip_zeros (s : string) : string :=
  match s with
  | String "0"%char s' => lstrip_zeros s'
  | _ => s
  end.

Fixpoint rstrip_zeros (s : string) : string :=
  match s with
  | EmptyString => EmptyString
  | String c s' =>
      match rstrip_zeros s' with
      | EmptyString =>
          if Ascii.eqb c "0" then EmptyString else String c EmptyString
      | t => String c t
      end
  end.

(** [a.strftime('%I%p')] *)
Definition strftime_Ip (a : Arrow) : string :=
  let h := hour a mod 12 in
  format_0d 2 (if h =? 0 then 12 else h)
  ++ (if hour a <? 12 then "AM" else "PM").

(** Lines 59-78. *)
Definition datetime_tag_set (stamp : option Arrow) : gset string :=
  match stamp with
  | None => ∅
  | Some stamp =>
      let hour := shift_minutes stamp 12 in
      normalized_tag_set
        [ str_of_int (year stamp);
          format_MMMM stamp;
          format_dddd stamp;
          ordinal (day stamp);
          rstrip_zeros (lstrip_zeros (strftime_Ip hour)) ]
  end.

End DatetimeTagSet.

(** *** The path of the thumbnail and the tags of the path *)

(** ['%x' % n] for [n >= 0]: lower-case digits. *)
Definition hex (n : N) : string :=
  HexadecimalString.NilEmpty.string_of_uint (N.to_hex_uint n).

(** ['%08x' % n]: the sign counts in the width. *)
Definition format_08x (n : Z) : string :=
  if n <? 0
  then let d := hex (Z.to_N (- n)) in
       ("-" ++ zeros (8 - 1 - String.length d) ++ d)%string
  else let d := hex (Z.to_N n) in
       (zeros (8 - String.length d) ++ d)%string.

(** Lines 89-92. *)
Definition thumb_path (id : Z) : string :=
  let id := format_08x id in
  PosixPath.join (take_str (String.length id - 3) id) (id ++ ".jpg")%string.

(** The loop of lines 308-312 over the components still to see, [i] being the
    number of those seen. *)
Fixpoint add_path_tags_loop (i add_path_tags : Z) (parts : list string)
    (tags : list string) : list string :=
  match parts with
  | [] => tags
  | t :: parts' =>
      if i =? add_path_tags then tags
      else
        let tags := if nonempty (strip t) then (tags ++ [strip t])%list
                    else tags in
        add_path_tags_loop (i + 1) add_path_tags parts' tags
  end.

(** Lines 306-312 of [create]: the tags handed on to the normalisation. *)
Definition create_tags (path : string) (tags : list string)
    (add_path_tags : Z) : list string :=
  if 0 <? add_path_tags
  then add_path_tags_loop 0 add_path_tags
         (rev (PosixPath.split (PosixPath.dirname path))) tags
  else tags.

End Photos.

(** ** lmj/photos/commands/retag.py *)

Module Retag.

(** Lines 32-34: [sorted(set(t.strip().lower() for t in tags if t.strip()))],
    the text ordered by character codes. *)
Definition str_le (s t : string) : Prop := (s = t) ∨ String.ltb s t = true.

#[export] Instance str_le_dec : RelDecision str_le.
Proof. intros s t. unfold str_le. apply _. Defined.

Definition normalize (tags : list string) : list string :=
  merge_sort str_le
    (remove_dups
       ((fun t => lower (strip t))
          <$> List.filter (fun t => nonempty (strip t)) tags)).

(** Lines 27-34 of [main], for one photo: the flags [--add],
    [--add-path-tag] and [--replace], the path of the photo and its user
    tags, in the order the set gives them. *)
Definition user_tags (add : list string) (add_path_tag replace : bool)
    (path : string) (user_tag_set : list string) : list string :=
  let tags := add in
  let tags := if add_path_tag
              then (tags ++ [PosixPath.basename (PosixPath.dirname path)])%list
              else tags in
  let tags := if negb replace then (tags ++ user_tag_set)%list else tags in
  normalize tags.

End Retag.

(** ** A run time and a parser to evaluate the model with *)

Module Demo.

(** The digits of [r / d] after the point, until the division is exact. *)
Fixpoint fraction_digits (fuel : nat) (r d : Z) : string :=
  match fuel with
  | O => ""
  | S fuel' =>
      let r10 := 10 * r in
      str_of_int (r10 / d)
      ++ (if r10 mod d =? 0 then "" else fraction_digits fuel' (r10 mod d) d)
  end.

Definition repr_decimal (x : Q) : string :=
  let n := Z.abs (Qnum x) in
  let d := Z.pos (Qden x) in
  (if Qnum x <? 0 then "-" else "")
  ++ str_of_int (n / d) ++ "." ++ fraction_digits 17 (n mod d) d.

Definition all_digits (s : string) : bool :=
  nonempty s && negb (nonempty (span_digits s).2).

(** Plain decimal numerals only: [12], [12.5]. *)
Definition decimal_of_str (s : string) : Result Q :=
  let '(i, r) := span_digits (strip s) in
  if negb (nonempty i) then Raise ValueError
  else match r with
       | EmptyString => Ok (inject_Z (int_of_digits i))
       | String "."%char f =>
           if all_digits f
           then Ok (inject_Z (int_of_digits i)
                    + inject_Z (int_of_digits f)
                      / inject_Z (10 ^ len f))%Q
           else Raise ValueError
       | _ => Raise ValueError
       end.

Definition integer_of_str (s : string) : Result Z :=
  if all_digits (strip s) then Ok (int_of_digits (strip s))
  else Raise ValueError.

Definition runtime : Runtime :=
  {| float_of_str := decimal_of_str;
     int_of_str := integer_of_str;
     repr_float := repr_decimal |}.

(** Reading a time by a layout of the tokens [YYYY], [MM], [DD], [HH],
    [mm], [ss]; every other character of the layout stands for itself. *)
Record Fields := mkFields { fY : Z; fM : Z; fD : Z; fh : Z; fm : Z; fs : Z }.

Definition read_digits (k : nat) (s : string) : option (Z * string) :=
  let d := take_str k s in
  if (String.length d =? k)%nat && all_digits d
  then Some (int_of_digits d, drop_str k s)
  else None.

Definition tokens : list (string * (Z → Fields → Fields)) :=
  [("YYYY", fun v f => mkFields v (fM f) (fD f) (fh f) (fm f) (fs f));
   ("MM", fun v f => mkFields (fY f) v (fD f) (fh f) (fm f) (fs f));
   ("DD", fun v f => mkFields (fY f) (fM f) v (fh f) (fm f) (fs f));
   ("HH", fun v f => mkFields (fY f) (fM f) (fD f) v (fm f) (fs f));
   ("mm", fun v f => mkFields (fY f) (fM f) (fD f) (fh f) v (fs f));
   ("ss", fun v f => mkFields (fY f) (fM f) (fD f) (fh f) (fm f) v)].

Fixpoint read_layout (fuel : nat) (layout s : string) (f : Fields)
  : option Fields :=
  match fuel with
  | O => None
  | S fuel' =>
      match layout with
      | EmptyString => if nonempty s then None else Some f
      | String c layout' =>
          match List.find (fun t => startswith t.1 layout) tokens with
          | Some (tok, set) =>
              match read_digits (String.length tok) s with
              | Some (v, s') =>
                  read_layout fuel' (drop_str (String.length tok) layout) s'
                              (set v f)
              | None => None
              end
          | None =>
              match s with
              | String c' s' =>
                  if Ascii.eqb c c' then read_layout fuel' layout' s' f
                  else None
              | EmptyString => None
              end
          end
      end
  end.

Definition days_in_month (y m : Z) : Z :=
  days_from_civil (if m =? 12 then y + 1 else y) (if m =? 12 then 1 else m + 1) 1
  - days_from_civil y m 1.

Definition valid (f : Fields) : bool :=
  (1 <=? fY f) && (fY f <=? 9999) && (1 <=? fM f) && (fM f <=? 12)
  && (1 <=? fD f) && (fD f <=? days_in_month (fY f) (fM f))
  && (fh f <=? 23) && (fm f <=? 59) && (fs f <=? 59).

Definition parse (layout s : string) : option Arrow :=
  match read_layout (S (String.length layout)) layout s
                    (mkFields 1 1 1 0 0 0) with
  | Some f =>
      if valid f
      then Some (from_civil (fY f) (fM f) (fD f) (fh f) (fm f) (fs f))
      else None
  | None => None
  end.

Fixpoint parse_any (layouts : list string) (s : string) : Result Arrow :=
  match layouts with
  | [] => Raise ValueError
  | layout :: layouts' =>
      match parse layout s with
      | Some t => Ok t
      | None => parse_any layouts' s
      end
  end.

Definition arrow_get (stamp : Value) (layouts : list string) : Result Arrow :=
  match stamp with
  | VStr s => parse_any layouts s
  | _ => Raise TypeError
  end.

(** The cosine and the sine by their power series: forty terms are summed
    in units of [2^-200] and the sum is rounded once.  For an angle of a
    few turns this is the number nearest to the cosine or the sine. *)
Definition fixed_one : Z := 2 ^ 200.

Fixpoint series (n : nat) (k : Z) (term sum x2 : Z) : Z :=
  match n with
  | O => sum
  | S n' =>
      series n' (k + 2) (- (term * x2 / fixed_one) / ((k + 1) * (k + 2)))
        (sum + term) x2
  end.

Definition by_series (k : Z) (x : Float64.float) : Result Float64.float :=
  match x with
  | S754_infinity _ => Raise ValueError
  | S754_nan => Ok S754_nan
  | _ =>
      let q := Qfloor (Float64.to_Q x * inject_Z fixed_one) in
      let first := if k =? 0 then fixed_one else q in
      let sum := series 40 k first 0 (q * q / fixed_one) in
      Ok (Float64.of_Q (Qred (sum # Z.to_pos fixed_one)))
  end.

Definition mathlib : Photos.MathLib :=
  {| Photos.cos := by_series 0;
     Photos.sin := by_series 1;
     Photos.cos_zero := eq_refl;
     Photos.sin_zero := eq_refl |}.

(** A file system that is nothing but its files, each with the time it
    was last modified. *)
Definition getmtime (fs : gmap string Q) (path : string) : Result Q :=
  match fs !! path with
  | Some t => Ok t
  | None => Raise FileNotFoundError
  end.

(** An image that is the list of the transforms made on it. *)
Definition show_box (box : list Z) : string :=
  String.concat "," (str_of_int <$> box).

Definition imaging : Photos.Imaging :=
  {| Photos.Image := list string;
     Photos.Enhancer := list string;
     Photos.image_size := fun _ => (400, 100);
     Photos.pil_autocontrast := fun img cutoff =>
       match cutoff with
       | Photos.PVal (VFloat x) =>
           Ok (img ++ [("autocontrast " ++ repr_decimal x)%string])%list
       | _ => Raise TypeError
       end;
     Photos.pil_brightness := fun img => Ok (img ++ ["brightness"])%list;
     Photos.pil_contrast := fun img => Ok (img ++ ["contrast"])%list;
     Photos.pil_color := fun img => Ok (img ++ ["color"])%list;
     Photos.enhance := fun e _ => Ok e;
     Photos.pil_crop := fun img box =>
       Ok (img ++ [("crop " ++ show_box box)%string])%list;
     Photos.pil_rotate := fun img _ => Ok (img ++ ["rotate"])%list |}.

End Demo.

(** ** Notions the properties are stated with *)

Import Metadata.

(** A key gives no time: it is absent, or its value fits neither layout. *)
Definition gives_no_time (arrow_get : Value → list string → Result Arrow)
    (meta : gmap string Value) (key : string) : Prop :=
  match meta !! key with
  | Some stamp => arrow_get stamp _TIMESTAMP_FORMATS = Raise ValueError
  | None => True
  end.


(** The sum of two numbers, and the rotate operation of an angle. *)
Definition plus (a b : Num) : Num :=
  match a, b with
  | Int x, Int y => Int (x + y)
  | Int x, Float y => Float (inject_Z x + y)
  | Float x, Int y => Float (x + inject_Z y)
  | Float x, Float y => Float (x + y)
  end.

Definition rotate_op (degrees : Num) : Photos.Op :=
  <["key" := Photos.PVal (VStr "rotate")]>
    {[ "degrees" := Photos.PVal (of_num degrees) ]}.

(** No character of the text is a capital letter; none is a space. *)
Fixpoint no_upper (s : string) : bool :=
  match s with
  | EmptyString => true
  | String c s' => negb (is_upper c) && no_upper s'
  end.

Fixpoint no_space (s : string) : bool :=
  match s with
  | EmptyString => true
  | String c s' => negb (is_space c) && no_space s'
  end.

(** A tag in normal form: lower case, nothing to strip at either end. *)
Definition normal (tag : string) : Prop := lower tag = tag ∧ strip tag = tag.

(** The first character of a text. *)
Definition head (s : string) : option ascii :=
  match s with
  | EmptyString => None
  | String c _ => Some c
  end.

(** At most one tag, which starts with [c] and is in normal form. *)
Definition one_tag (c : ascii) (tags : list string) : Prop :=
  tags = [] ∨ ∃ tag, tags = [tag] ∧ head tag = Some c ∧ normal tag.

(** The keys [_apply_op] knows. *)
Definition recognized (key : Photos.Param) : bool :=
  Photos.is_str key "autocontrast" || Photos.is_str key "brightness"
  || Photos.is_str key "contrast" || Photos.is_str key "saturation"
  || Photos.is_str key "crop" || Photos.is_str key "rotate".

(** The tag of the hour [h]. *)
Definition hour_tag (h : Z) : string :=
  lower ("h:" ++ format_0d 2 h ++ ":" ++ ha_of_hour h).

(** The tags of the year [y], of the month [m], of the day [d] of the month
    and of the day [w] of the week, Monday being 0. *)
Definition year_tag (y : Z) : string := "y:" ++ format_0d 4 y.

Definition month_tag (m : Z) : string :=
  lower ("m:" ++ format_0d 2 m ++ ":"
         ++ default "" (month_names !! Z.to_nat (m - 1))).

Definition day_tag (d : Z) : string :=
  lower ("d:" ++ format_0d 2 d ++ ":" ++ str_of_int d ++ ordinal_suffix d).

Definition weekday_tag (w : Z) : string :=
  lower ("w:" ++ str_of_int w ++ ":" ++ default "" (day_names !! Z.to_nat w)).

(** An operation other than a rotate. *)
Definition plain (op : Photos.Op) : bool := negb (Photos.is_rotate op).

(** The operation a call of a mutator other than [rotate] appends. *)
Definition plain_op (c : Photos.Call) : option Photos.Op :=
  let op key params := Some (<["key" := Photos.PVal (VStr key)]> params) in
  match c with
  | Photos.call_rotate _ => None
  | Photos.call_crop box =>
      op "crop" {[ "box" := Photos.PList (of_num <$> box) ]}
  | Photos.call_brightness level =>
      op "brightness" {[ "level" := Photos.PVal (of_num level) ]}
  | Photos.call_contrast level =>
      op "contrast" {[ "level" := Photos.PVal (of_num level) ]}
  | Photos.call_saturation level =>
      op "saturation" {[ "level" := Photos.PVal (of_num level) ]}
  | Photos.call_autocontrast => op "autocontrast" ∅
  end.

(** An angle of one turn: an [int] from 0 up to, and without, 360; a
    [float] from 0.0 up to 360.0. *)
Definition in_turn (d : Num) : Prop :=
  match d with
  | Int a => 0 ≤ a < 360
  | Float x => (0 <= x)%Q ∧ (x <= 360)%Q
  end.

(** An operation as the mutators make it: it has a key, and a rotate is
    nothing but its key and an angle within one turn. *)
Definition well_formed (op : Photos.Op) : Prop :=
  is_Some (op !! "key")
  ∧ (Photos.is_rotate op = true → ∃ d, op = rotate_op d ∧ in_turn d).

(** What [float(n)] is for a side [n] of a picture: 0.0, or a positive
    number that [int] takes back to [n]. *)
Definition side (x : Float64.float) (n : Z) : Prop :=
  (x = Float64.zero ∧ n = 0)
  ∨ ∃ m e, x = S754_finite false m e
           ∧ bounded Float64.prec Float64.emax m e = true
           ∧ Float64.to_int x = Ok n.

(** [math.radians(45)] and [math.radians(30)], which are
    0.7853981633974483 and 0.5235987755982988, and the cosine and the sine
    that the C library of the GNU system returns for them:
    0.7071067811865476 and 0.7071067811865475, 0.8660254037844387 and
    0.49999999999999994. *)
Definition angle_45 : Float64.float :=
  S754_finite false 0x1921FB54442D18 (-53).
Definition cos_45 : Float64.float := S754_finite false 0x16A09E667F3BCD (-53).
Definition sin_45 : Float64.float := S754_finite false 0x16A09E667F3BCC (-53).

Definition angle_30 : Float64.float :=
  S754_finite false 0x10C152382D7365 (-53).
Definition cos_30 : Float64.float := S754_finite false 0x1BB67AE8584CAB (-53).
Definition sin_30 : Float64.float := S754_finite false 0x1FFFFFFFFFFFFF (-54).

(** [math.radians(225)], 3.9269908169872414, with its cosine
    -0.7071067811865477 and its sine -0.7071067811865475. *)
Definition angle_225 : Float64.float :=
  S754_finite false 0x1F6A7A2955385E (-51).
Definition cos_225 : Float64.float := S754_finite true 0x16A09E667F3BCE (-53).
Definition sin_225 : Float64.float := S754_finite true 0x16A09E667F3BCC (-53).

(** A record of the log that announces an operation. *)
Definition is_applying (r : Photos.LogRecord) : bool :=
  match r with
  | Photos.applying_op _ _ => true
  | Photos.unknown_image_op _ _ => false
  end.

(** The value of a number as a fraction. *)
Definition as_Q (n : Num) : Q :=
  match n with
  | Int k => inject_Z k
  | Float x => x
  end.

(** [int(s, 16)] for a text of lower-case digits with or without a sign. *)
Definition parse_08x (s : string) : option Z :=
  match s with
  | EmptyString => None
  | String c r =>
      if Ascii.eqb c "-"
      then (fun u => - Z.of_N (N.of_hex_uint u))
             <$> HexadecimalString.NilEmpty.uint_of_string r
      else (fun u => Z.of_N (N.of_hex_uint u))
             <$> HexadecimalString.NilEmpty.uint_of_string s
  end.

(** No character of the text is the separator of paths. *)
Fixpoint no_sep (s : string) : bool :=
  match s with
  | EmptyString => true
  | String c s' => negb (Ascii.eqb c PosixPath.sep) && no_sep s'
  end.

(** A name that does not strip to nothing. *)
Definition nonblank (t : string) : bool := nonempty (strip t).

(** The value of a hexadecimal numeral read after the digits of [acc]. *)
Fixpoint hex_value (d : Hexadecimal.uint) (acc : Z) : Z :=
  match d with
  | Hexadecimal.Nil => acc
  | Hexadecimal.D0 l => hex_value l (16 * acc)
  | Hexadecimal.D1 l => hex_value l (16 * acc + 1)
  | Hexadecimal.D2 l => hex_value l (16 * acc + 2)
  | Hexadecimal.D3 l => hex_value l (16 * acc + 3)
  | Hexadecimal.D4 l => hex_value l (16 * acc + 4)
  | Hexadecimal.D5 l => hex_value l (16 * acc + 5)
  | Hexadecimal.D6 l => hex_value l (16 * acc + 6)
  | Hexadecimal.D7 l => hex_value l (16 * acc + 7)
  | Hexadecimal.D8 l => hex_value l (16 * acc + 8)
  | Hexadecimal.D9 l => hex_value l (16 * acc + 9)
  | Hexadecimal.Da l => hex_value l (16 * acc + 10)
  | Hexadecimal.Db l => hex_value l (16 * acc + 11)
  | Hexadecimal.Dc l => hex_value l (16 * acc + 12)
  | Hexadecimal.Dd l => hex_value l (16 * acc + 13)
  | Hexadecimal.De l => hex_value l (16 * acc + 14)
  | Hexadecimal.Df l => hex_value l (16 * acc + 15)
  end.

(** The first [k] digits of a hexadecimal numeral. *)
Fixpoint hex_take (k : nat) (d : Hexadecimal.uint) : Hexadecimal.uint :=
  match k with
  | O => Hexadecimal.Nil
  | S k' =>
      match d with
      | Hexadecimal.Nil => Hexadecimal.Nil
      | Hexadecimal.D0 l => Hexadecimal.D0 (hex_take k' l)
      | Hexadecimal.D1 l => Hexadecimal.D1 (hex_take k' l)
      | Hexadecimal.D2 l => Hexadecimal.D2 (hex_take k' l)
      | Hexadecimal.D3 l => Hexadecimal.D3 (hex_take k' l)
      | Hexadecimal.D4 l => Hexadecimal.D4 (hex_take k' l)
      | Hexadecimal.D5 l => Hexadecimal.D5 (hex_take k' l)
      | Hexadecimal.D6 l => Hexadecimal.D6 (hex_take k' l)
      | Hexadecimal.D7 l => Hexadecimal.D7 (hex_take k' l)
      | Hexadecimal.D8 l => Hexadecimal.D8 (hex_take k' l)
      | Hexadecimal.D9 l => Hexadecimal.D9 (hex_take k' l)
      | Hexadecimal.Da l => Hexadecimal.Da (hex_take k' l)
      | Hexadecimal.Db l => Hexadecimal.Db (hex_take k' l)
      | Hexadecimal.Dc l => Hexadecimal.Dc (hex_take k' l)
      | Hexadecimal.Dd l => Hexadecimal.Dd (hex_take k' l)
      | Hexadecimal.De l => Hexadecimal.De (hex_take k' l)
      | Hexadecimal.Df l => Hexadecimal.Df (hex_take k' l)
      end
  end.

(** * Properties *)

(** ** The time stamp of an asset *)

Section TimestampFacts.
Variable arrow_get : Value → list string → Result Arrow.

Lemma try_keys_skip (meta : gmap string Value) before keys :
  Forall (gives_no_time arrow_get meta) before →
  try_keys arrow_get (before ++ keys) meta = try_keys arrow_get keys meta.
Proof.
  induction 1 as [|key before Hkey _ IH]; [done|].
  simpl. unfold gives_no_time in Hkey.
  destruct (meta !! key); [rewrite Hkey|]; exact IH.
Qed.


Lemma truthy_lookup (meta : gmap string Value) key stamp :
  meta !! key = Some stamp → truthy (Some meta) = true.
Proof.
  intros Hkey. unfold truthy. case_bool_decide as Hempty; [|done].
  subst meta. by rewrite lookup_empty in Hkey.
Qed.

End TimestampFacts.



(** Without metadata the result is the modification time, or the sentinel
    when there is no file. *)
Lemma get_timestamp_no_meta arrow_get getmtime path meta :
  truthy meta = false →
  get_timestamp arrow_get getmtime path meta
  = match getmtime path with
    | Ok mtime => Ok (of_timestamp mtime)
    | Raise FileNotFoundError => Ok sentinel
    | Raise e => Raise e
    end.
Proof. intros Hmeta. unfold get_timestamp. by rewrite Hmeta. Qed.

(** In a file system that has nothing but files the sentinel stands for
    the file that is not there. *)
Lemma get_timestamp_of_files arrow_get (fs : gmap string Q) path meta :
  truthy meta = false →
  get_timestamp arrow_get (Demo.getmtime fs) path meta
  = match fs !! path with
    | Some mtime => Ok (of_timestamp mtime)
    | None => Ok sentinel
    end.
Proof.
  intros Hmeta. rewrite get_timestamp_no_meta by done.
  unfold Demo.getmtime. by destruct (fs !! path).
Qed.

(** An exception of the parser other than [ValueError] is not caught. *)
Lemma get_timestamp_propagates arrow_get getmtime path
    (meta : gmap string Value) stamp e :
  meta !! "DateTimeOriginal" = Some stamp →
  arrow_get stamp _TIMESTAMP_FORMATS = Raise e →
  e ≠ ValueError →
  get_timestamp arrow_get getmtime path (Some meta) = Raise e.
Proof.
  intros Hkey Hget He. unfold get_timestamp.
  rewrite (truthy_lookup _ _ _ Hkey). simpl. rewrite Hkey, Hget.
  by destruct e.
Qed.

(** The older [Photo.create] tries the same keys in the same order, but
    falls back on the present time: it uses neither the modification time
    of the file nor the sentinel. *)
Lemma create_stamp_falls_back_on_now strptime now (exif : gmap string Value) :
  (∀ key, Photos.compute_timestamp_from strptime exif key = None) →
  Photos.create_stamp strptime now exif = now.
Proof.
  intros Hnone. unfold Photos.create_stamp. simpl. by rewrite !Hnone.
Qed.

(** ** Rounding to the leading digits *)

(** *** The printed form of an integer *)











(** *** Rounding *)





Lemma trunc_product s r : trunc (inject_Z s * inject_Z r) = s * r.
Proof. unfold trunc. simpl. by rewrite Z.quot_1_r. Qed.

Section RoundFacts.
Context `{Runtime}.

(** The examples of the specification. *)
Lemma round_msd_examples :
  _round_to_most_significant_digits (VInt 23) 1 = Ok 20
  ∧ _round_to_most_significant_digits (VInt 847) 1 = Ok 800
  ∧ _round_to_most_significant_digits (VInt 7) 1 = Ok 7.
Proof. by vm_compute. Qed.



(** C2.  For a text that starts with a number and goes on, the digits are
    counted on the whole text and not on the number: ["847mm"] has the
    value 847, and its result is 0 where rounding 847 to its leading digit
    gives 800. *)
Theorem round_msd_counts_whole_text :
  _round_to_most_significant_digits (VStr "847mm") 1 = Ok 0
  ∧ _round_to_most_significant_digits (VStr "847") 1 = Ok 800.
Proof. by vm_compute. Qed.

(** The same with a float, whose printed form has a point and a fraction. *)
Lemma round_msd_counts_printed_float :
  repr_float 23 = "23.0" →
  _round_to_most_significant_digits (VFloat 23) 1 = Ok 0.
Proof.
  intros Hrepr. unfold _round_to_most_significant_digits. simpl.
  rewrite Hrepr. by vm_compute.
Qed.

End RoundFacts.

(** ** Tags of a time *)

Lemma hour_shift_minutes stamp :
  hour (shift_minutes stamp 11)
  = if minute stamp <? 49 then hour stamp else (hour stamp + 1) mod 24.
Proof.
  unfold hour, minute, shift_minutes. simpl.
  destruct (Z.ltb_spec ((epoch stamp mod 3600) / 60) 49);
    Z.div_mod_to_equations; lia.
Qed.

(** C3.  [gen_datetime_tags] yields no tag without a time and five with
    one: the tags of the year, of the month, of the day of the month and of
    the day of the week of the time itself, in this order, and then the tag
    of the hour of the time eleven minutes later; 2009-01-22 10:49:00, a
    Thursday, has [y:2009], [m:01:january], [d:22:22nd], [w:3:thursday] and
    [h:11:11am].  So from 10:49:00 to 11:48:59 the last tag is [h:11:11am],
    and at 10:48 it is [h:10:10am]. *)
Theorem gen_datetime_tags_hour_bucket :
  gen_datetime_tags None = []
  ∧ (∀ stamp, length (gen_datetime_tags (Some stamp)) = 5%nat)
  ∧ (∀ stamp,
       gen_datetime_tags (Some stamp)
       = [ year_tag (year stamp); month_tag (month stamp);
           day_tag (day stamp); weekday_tag (weekday stamp);
           hour_tag (((epoch stamp + 11 * 60) mod 86400) / 3600) ])
  ∧ gen_datetime_tags (Some (from_civil 2009 1 22 10 49 0))
    = [ "y:2009"; "m:01:january"; "d:22:22nd"; "w:3:thursday"; "h:11:11am" ]
  ∧ (year_tag 987 = "y:0987" ∧ month_tag 12 = "m:12:december"
     ∧ day_tag 1 = "d:01:1st" ∧ day_tag 13 = "d:13:13th"
     ∧ weekday_tag 0 = "w:0:monday" ∧ weekday_tag 6 = "w:6:sunday")
  ∧ (∀ stamp,
       gen_datetime_tags (Some stamp) !! 4%nat
       = Some (hour_tag (((epoch stamp + 11 * 60) mod 86400) / 3600)))
  ∧ (∀ stamp,
       (hour stamp = 10 ∧ 49 ≤ minute stamp)
       ∨ (hour stamp = 11 ∧ minute stamp ≤ 48) →
       gen_datetime_tags (Some stamp) !! 4%nat = Some "h:11:11am")
  ∧ (∀ stamp,
       hour stamp = 10 → minute stamp = 48 →
       gen_datetime_tags (Some stamp) !! 4%nat = Some "h:10:10am").
Proof.
  split_and!; try done.
  - intros stamp Hclock. simpl. unfold format_ha.
    rewrite hour_shift_minutes.
    destruct (Z.ltb_spec (minute stamp) 49), Hclock as [[-> ?]|[-> ?]];
      try lia; reflexivity.
  - intros stamp Hhour Hminute. simpl. unfold format_ha.
    rewrite hour_shift_minutes, Hhour, Hminute. reflexivity.
Qed.

Lemma gen_datetime_tags_hour_bucket_witness :
  gen_datetime_tags (Some (from_civil 2009 1 22 10 49 0))
    !! 4%nat = Some "h:11:11am"
  ∧ gen_datetime_tags (Some (from_civil 2009 1 22 10 48 0))
    !! 4%nat = Some "h:10:10am".
Proof.
  destruct gen_datetime_tags_hour_bucket
    as (_ & _ & _ & _ & _ & _ & Heleven & Hten).
  split.
  - apply Heleven. left. by vm_compute.
  - apply Hten; by vm_compute.
Defined.

(** The older [Photo.datetime_tag_set] moves the time by twelve minutes,
    not eleven: 10:48 is already in the hour of 11. *)
Lemma datetime_tag_set_shifts_by_twelve normalized_tag_set :
  Photos.datetime_tag_set normalized_tag_set
    (Some (from_civil 2009 1 22 10 48 0))
  = normalized_tag_set ["2009"; "January"; "Thursday"; "22nd"; "11AM"].
Proof. reflexivity. Qed.

(** The examples of the specification for the tags of the metadata. *)
Lemma gen_metadata_tags_examples :
  gen_metadata_tags (H := Demo.runtime)
    (Some (<["Model" := VStr "Canon EOS Rebel T2i"]>
             (<["FNumber" := VFloat (28 # 10)]> ∅)))
  = (["kit:eos rebel t2i"; "aperture:f/2.8"], Ok tt)
  ∧ gen_metadata_tags (H := Demo.runtime)
      (Some (<["FNumber" := VFloat 4]>
               (<["FocalLength" := VStr "23.5 mm"]> ∅)))
    = (["aperture:f/4"; "focus:20mm"], Ok tt).
Proof. by vm_compute. Qed.

(** ** The operation list *)

Import Photos.
Local Open Scope list_scope.

Section MutatorFacts.
Variable publish : list Op → Result unit.

Lemma no_adjacent_rotates_snoc ops op :
  no_adjacent_rotates (ops ++ [op])
  = no_adjacent_rotates ops
    && match last ops with
       | Some op' => negb (is_rotate op' && is_rotate op)
       | None => true
       end.
Proof.
  induction ops as [|op1 ops IH]; [done|].
  destruct ops as [|op2 ops].
  - simpl. by rewrite !andb_true_r.
  - change (no_adjacent_rotates ((op1 :: op2 :: ops) ++ [op]))
      with (negb (is_rotate op1 && is_rotate op2)
            && no_adjacent_rotates ((op2 :: ops) ++ [op])).
    rewrite IH, last_cons_cons.
    change (no_adjacent_rotates (op1 :: op2 :: ops))
      with (negb (is_rotate op1 && is_rotate op2)
            && no_adjacent_rotates (op2 :: ops)).
    by rewrite andb_assoc.
Qed.

Lemma no_adjacent_rotates_removelast ops op :
  last ops = Some op →
  no_adjacent_rotates ops = true →
  no_adjacent_rotates (removelast ops) = true.
Proof.
  intros [ops' ->]%last_Some. rewrite removelast_last, no_adjacent_rotates_snoc.
  by intros [? _]%andb_true_iff.
Qed.

Lemma add_op_state key op ops :
  (_add_op publish key op ops).1 = ops ++ [<["key" := PVal (VStr key)]> op].
Proof.
  unfold _add_op, append, get_ops, liftM, mbind, M_bind. simpl.
  reflexivity.
Qed.

Lemma is_rotate_add_op key op :
  is_rotate (<["key" := PVal (VStr key)]> op) = String.eqb key Ops.Rotate.
Proof. unfold is_rotate. by rewrite lookup_insert_eq. Qed.

(** What [rotate] leaves in the list, by the last operation it finds. *)
Lemma rotate_state_empty degrees :
  (rotate publish degrees []).1 = [rotate_op (mod360 degrees)].
Proof.
  reflexivity.
Qed.

Lemma rotate_state_other degrees ops op :
  is_rotate op = false →
  (rotate publish degrees (ops ++ [op])).1 = ops ++ [op]
  ∨ (rotate publish degrees (ops ++ [op])).1
    = ops ++ [op; rotate_op (mod360 degrees)].
Proof.
  intros Hop. unfold rotate, mbind, M_bind, get_ops, liftM, getitem, mret, M_ret.
  rewrite last_snoc. unfold is_rotate in Hop.
  destruct (op !! "key") as [key|]; [|by left].
  rewrite Hop. right. rewrite add_op_state. by rewrite <- app_assoc.
Qed.

Lemma rotate_state_rotate degrees ops op :
  is_rotate op = true →
  (rotate publish degrees (ops ++ [op])).1 = ops
  ∨ ∃ sum, (rotate publish degrees (ops ++ [op])).1 = ops ++ [rotate_op sum].
Proof.
  intros Hop. unfold rotate, mbind, M_bind, get_ops, liftM, getitem, mret, M_ret.
  rewrite last_snoc. unfold is_rotate in Hop.
  destruct (op !! "key") as [key|]; [|done].
  rewrite Hop. unfold pop. rewrite last_snoc, removelast_last.
  destruct (op !! "degrees") as [d|]; [|by left].
  destruct (add degrees d) as [sum|]; [|by left].
  right. exists (mod360 sum). by rewrite add_op_state.
Qed.

Lemma add_of_num a b : add a (PVal (of_num b)) = Ok (plus a b).
Proof. by destruct a, b. Qed.

Lemma rotate_state_merge degrees ops op d :
  op !! "key" = Some (PVal (VStr Ops.Rotate)) →
  op !! "degrees" = Some (PVal (of_num d)) →
  (rotate publish degrees (ops ++ [op])).1
  = ops ++ [rotate_op (mod360 (plus degrees d))].
Proof.
  intros Hkey Hdegrees.
  unfold rotate, mbind, M_bind, get_ops, liftM, getitem, mret, M_ret.
  rewrite last_snoc, Hkey. simpl. unfold pop.
  rewrite last_snoc, removelast_last, Hdegrees, add_of_num.
  by rewrite add_op_state.
Qed.

Lemma is_rotate_rotate_op degrees : is_rotate (rotate_op degrees) = true.
Proof. unfold rotate_op. by rewrite is_rotate_add_op. Qed.






End MutatorFacts.


(** ** The crop box of a rotation *)

(** *** Numbers that the arithmetic keeps as they are *)

Lemma digits2_pos_iter m k :
  Z.pos (digits2_pos (Pos.iter xO m k)) = Z.pos (digits2_pos m) + Z.pos k.
Proof.
  induction k as [|k IH] using Pos.peano_ind.
  - simpl. lia.
  - rewrite Pos.iter_succ. simpl. lia.
Qed.

Lemma pos_iter_value m k : Z.pos (Pos.iter xO m k) = Z.pos m * 2 ^ Z.pos k.
Proof.
  induction k as [|k IH] using Pos.peano_ind.
  - simpl. lia.
  - rewrite Pos.iter_succ, Pos2Z.inj_xO, IH, Pos2Z.inj_succ, Z.pow_succ_r; lia.
Qed.

Lemma digits2_pos_bounds m :
  2 ^ (Z.pos (digits2_pos m) - 1) ≤ Z.pos m < 2 ^ Z.pos (digits2_pos m).
Proof.
  induction m as [m IH|m IH|]; simpl; [| |lia];
    rewrite Pos2Z.inj_succ, Z.pow_succ_r by lia;
    replace (Z.succ (Z.pos (digits2_pos m)) - 1)
      with (Z.succ (Z.pos (digits2_pos m) - 1)) by lia;
    rewrite Z.pow_succ_r by lia; lia.
Qed.

Lemma digits2_pos_le m n : 0 ≤ n → Z.pos m < 2 ^ n → Z.pos (digits2_pos m) ≤ n.
Proof.
  intros Hn Hm. pose proof (digits2_pos_bounds m) as [Hlow _].
  destruct (Z.le_gt_cases (Z.pos (digits2_pos m)) n) as [|Hgt]; [done|].
  assert (2 ^ n ≤ 2 ^ (Z.pos (digits2_pos m) - 1))
    by (apply Z.pow_le_mono_r; lia).
  lia.
Qed.

(** A mantissa that fits its exponent is not rounded. *)
Lemma binary_round_aux_bounded s m e :
  bounded Float64.prec Float64.emax m e = true →
  binary_round_aux Float64.prec Float64.emax s (Z.pos m) e loc_Exact
  = S754_finite s m e.
Proof.
  unfold bounded, canonical_mantissa.
  intros [Hcanonical Hrange]%andb_prop. apply Z.eqb_eq in Hcanonical.
  unfold binary_round_aux, shr_fexp. cbn [Zdigits2 shr_record_of_loc].
  rewrite Hcanonical, Z.sub_diag. cbn [shr shr_m loc_of_shr_record].
  cbn [round_nearest_even Zdigits2].
  rewrite Hcanonical, Z.sub_diag. cbn [shr shr_m shr_record_of_loc].
  by rewrite Hrange.
Qed.

Lemma shr_52 m :
  SpecFloat.iter_pos shr_1 52
    {| shr_m := Z.pos (Pos.iter xO m 52); shr_r := false; shr_s := false |}
  = {| shr_m := Z.pos m; shr_r := false; shr_s := false |}.
Proof. reflexivity. Qed.

(** A product with 1.0 is the other factor. *)
Lemma mul_one x :
  valid_binary Float64.prec Float64.emax x = true →
  (x * Float64.one)%f64 = x.
Proof.
  destruct x as [s|s| |s m e]; intros Hvalid;
    try (cbn; by rewrite ?xorb_false_r).
  cbn [valid_binary] in Hvalid.
  pose proof Hvalid as [Hcanonical Hrange]%andb_prop.
  unfold canonical_mantissa in Hcanonical. apply Z.eqb_eq in Hcanonical.
  unfold Float64.mul, Float64.one, SFmul. rewrite xorb_false_r.
  assert ((m * 4503599627370496)%positive = Pos.iter xO m 52) as ->.
  { apply Pos2Z.inj. rewrite pos_iter_value, Pos2Z.inj_mul. reflexivity. }
  unfold binary_round_aux, shr_fexp. cbn [Zdigits2 shr_record_of_loc].
  rewrite digits2_pos_iter.
  replace (Z.pos (digits2_pos m) + 52 + (e + -52))
    with (Z.pos (digits2_pos m) + e) by lia.
  rewrite Hcanonical.
  replace (e - (e + -52)) with 52 by lia.
  cbn [shr]. rewrite shr_52. cbn [shr_m loc_of_shr_record round_nearest_even].
  replace (e + -52 + 52) with e by lia.
  cbn [Zdigits2]. rewrite Hcanonical, Z.sub_diag.
  cbn [shr shr_m shr_record_of_loc]. by rewrite Hrange.
Qed.

(** The number nearest to an integer below [2^53] is the integer. *)
Lemma nearest_pos p :
  Z.pos p < 2 ^ 53 →
  ∃ m e, Float64.nearest (Z.pos p) = S754_finite false m e
         ∧ bounded Float64.prec Float64.emax m e = true
         ∧ e ≤ 0
         ∧ Z.pos m = Z.pos p * 2 ^ (- e).
Proof.
  intros Hp. pose proof (digits2_pos_le p 53 ltac:(lia) Hp) as Hd.
  unfold Float64.nearest, binary_normalize, binary_round, shl_align.
  set (d := Z.pos (digits2_pos p)) in *.
  assert (Hfexp : ∀ k, 1 ≤ k →
            fexp Float64.prec Float64.emax k = k - 53)
    by (intros k Hk; unfold fexp, emin, Float64.prec, Float64.emax; lia).
  rewrite Z.add_0_r, Hfexp by (unfold d; lia).
  assert (Hbounded : ∀ m e,
            Z.pos (digits2_pos m) = 53 → -52 ≤ e ≤ 0 →
            bounded Float64.prec Float64.emax m e = true).
  { intros m e Hm He. unfold bounded, canonical_mantissa.
    rewrite Hm, Hfexp by lia. apply andb_true_intro. split.
    - apply Z.eqb_eq. lia.
    - apply Z.leb_le. unfold Float64.prec, Float64.emax. lia. }
  destruct (d - 53 - 0) as [|k|k] eqn:Hk; [|lia|].
  - exists p, 0. rewrite binary_round_aux_bounded
      by (apply Hbounded; fold d; lia).
    split_and!; [done|apply Hbounded; fold d; lia|done|simpl; lia].
  - assert (Z.pos (digits2_pos (Pos.iter xO p k)) = 53)
      by (rewrite digits2_pos_iter; fold d; lia).
    exists (Pos.iter xO p k), (d - 53).
    rewrite binary_round_aux_bounded by (apply Hbounded; unfold d; lia).
    split_and!; [done|apply Hbounded; unfold d; lia|lia|].
    rewrite pos_iter_value. do 2 f_equal. lia.
Qed.

Lemma to_int_scaled m e n :
  e ≤ 0 → Z.pos m = n * 2 ^ (- e) →
  Float64.to_int (S754_finite false m e) = Ok n.
Proof.
  intros He Hm. unfold Float64.to_int. destruct e as [|k|k]; [|lia|].
  - f_equal. simpl in Hm. lia.
  - f_equal. rewrite Hm. change (- Z.neg k) with (Z.pos k).
    apply Z.div_mul. apply Z.pow_nonzero; lia.
Qed.

Lemma of_int_side n :
  0 ≤ n < 2 ^ 53 → ∃ x, Float64.of_int n = Ok x ∧ side x n.
Proof.
  intros Hn. destruct n as [|p|p]; [| |lia].
  - exists Float64.zero. split; [done|by left].
  - destruct (nearest_pos p ltac:(lia)) as (m & e & Hnearest & Hm & He & Hp).
    exists (S754_finite false m e). unfold Float64.of_int.
    rewrite Hnearest. split; [done|]. right. exists m, e.
    split_and!; [done..|]. by apply to_int_scaled.
Qed.

Lemma side_to_int x n : side x n → Float64.to_int x = Ok n.
Proof. by intros [[-> ->]|(m & e & _ & _ & Hint)]. Qed.

Lemma side_valid x n :
  side x n → valid_binary Float64.prec Float64.emax x = true.
Proof. by intros [[-> _]|(m & e & -> & Hm & _)]. Qed.

Section GeometryFacts.
Context `{MathLib}.

(** Without a rotation the box is the whole picture. *)
Lemma crop_after_rotate_zero w h :
  0 ≤ w < 2 ^ 53 → 0 ≤ h < 2 ^ 53 →
  _crop_after_rotate w h Float64.zero = Ok [0; 0; w; h].
Proof.
  intros Hw Hh.
  destruct (of_int_side w Hw) as (x & Hx & Hside_x).
  destruct (of_int_side h Hh) as (y & Hy & Hside_y).
  unfold _crop_after_rotate, crop_offsets.
  rewrite cos_zero, sin_zero. cbn [mbind Result_bind].
  rewrite Hx, Hy. cbn [mbind Result_bind].
  change (Float64.abs Float64.one) with Float64.one.
  change (Float64.abs Float64.zero) with Float64.zero.
  rewrite !mul_one by (by eapply side_valid).
  change (divide (Float64.one * Float64.zero)
            (Float64.zero * Float64.zero - Float64.one * Float64.one))%f64
    with (Ok (S754_zero true)).
  cbn [mbind Result_bind].
  pose proof (side_to_int x w Hside_x) as Hint_x.
  pose proof (side_to_int y h Hside_y) as Hint_y.
  destruct Hside_x as [[-> ->]|(mx & ex & -> & _ & _)],
    Hside_y as [[-> ->]|(my & ey & -> & _ & _)];
    cbn -[Float64.to_int] in *; by rewrite ?Hint_x, ?Hint_y.
Qed.

(** The bound on the sides is needed: a side of [2^53 + 1] is rounded. *)
Lemma crop_after_rotate_zero_rounds :
  _crop_after_rotate (2 ^ 53 + 1) 1 Float64.zero = Ok [0; 0; 2 ^ 53; 1].
Proof.
  unfold _crop_after_rotate, crop_offsets. rewrite cos_zero, sin_zero.
  by vm_compute.
Qed.

(** C5.  [_crop_after_rotate] has no case of its own for the angles where
    [S² = C²], and at 45 degrees the division does not fail either: the
    cosine and the sine of [math.radians(45)] differ in their last bit, so
    that [S*S - C*C] is [-2^-52] and not zero, and [f] is [-2^51].  For a
    picture of 400 by 100 the function returns, without an exception, a box
    whose corners lie some [4.7e17] pixels off the canvas. *)
Theorem crop_after_rotate_at_45_degrees :
  cos angle_45 = Ok cos_45 →
  sin angle_45 = Ok sin_45 →
  radians (PVal (VInt 45)) = Ok angle_45
  ∧ (sin_45 * sin_45 - cos_45 * cos_45)%f64
    = S754_finite true 4503599627370496 (-104)
  ∧ divide (cos_45 * sin_45)%f64 (sin_45 * sin_45 - cos_45 * cos_45)%f64
    = Ok (S754_finite true 4503599627370496 (-1))
  ∧ _crop_after_rotate 400 100 angle_45
    = Ok [ -477678875439432832; 477678875439432960;
           477678875439433216; -477678875439432576 ].
Proof.
  intros Hcos Hsin. split_and!; [by vm_compute..|].
  unfold _crop_after_rotate, crop_offsets. rewrite Hcos, Hsin.
  by vm_compute.
Qed.

(** C6.  The offsets are not kept within the canvas.  For a picture of 400
    by 100 turned by 30 degrees the formula is defined, [S*S - C*C] being
    about -0.5, and the offset [a] is -98.2, below zero: of the box
    [-98, 256, 494, 29] the left edge is off the canvas, the right edge is
    beyond its width of 396, and the top is below the bottom. *)
Theorem crop_offsets_leave_canvas_at_30_degrees :
  cos angle_30 = Ok cos_30 →
  sin angle_30 = Ok sin_30 →
  radians (PVal (VInt 30)) = Ok angle_30
  ∧ Float64.eqb (sin_30 * sin_30 - cos_30 * cos_30)%f64 Float64.zero = false
  ∧ (∃ a b W H,
       crop_offsets 400 100 angle_30 = Ok (a, b, W, H)
       ∧ Float64.negative a = true
       ∧ Float64.to_int a = Ok (-98)
       ∧ Float64.to_int b = Ok 256
       ∧ Float64.to_int W = Ok 396
       ∧ Float64.to_int H = Ok 286)
  ∧ _crop_after_rotate 400 100 angle_30 = Ok [-98; 256; 494; 29].
Proof.
  intros Hcos Hsin. split_and!; [by vm_compute..| |].
  - unfold crop_offsets. rewrite Hcos, Hsin.
    eexists _, _, _, _. split; [by vm_compute|]. by vm_compute.
  - unfold _crop_after_rotate, crop_offsets. rewrite Hcos, Hsin.
    by vm_compute.
Qed.

End GeometryFacts.

Lemma crop_after_rotate_at_45_degrees_witness :
  _crop_after_rotate (H := Demo.mathlib) 400 100 angle_45
  = Ok [ -477678875439432832; 477678875439432960;
         477678875439433216; -477678875439432576 ].
Proof.
  apply (crop_after_rotate_at_45_degrees (H := Demo.mathlib));
    by vm_compute.
Defined.

Lemma crop_offsets_leave_canvas_at_30_degrees_witness :
  _crop_after_rotate (H := Demo.mathlib) 400 100 angle_30
  = Ok [-98; 256; 494; 29].
Proof.
  apply (crop_offsets_leave_canvas_at_30_degrees (H := Demo.mathlib));
    by vm_compute.
Defined.

(** ** Rendering *)

Section RenderingFacts.
Context `{Runtime} `{Imaging} `{MathLib}.

Lemma bind_logged {A B} (log1 : list LogRecord) (r : Result A)
    (k : A → Logged B) :
  (log1, r) ≫= k
  = match r with
    | Ok a => (log1 ++ (k a).1, (k a).2)
    | Raise e => (log1, Raise e)
    end.
Proof. done. Qed.

Lemma apply_ops_cons path img op ops :
  apply_ops path img (op :: ops)
  = img' ← _apply_op path img op; apply_ops path img' ops.
Proof. done. Qed.

Lemma apply_ops_app path img before after :
  apply_ops path img (before ++ after)
  = img' ← apply_ops path img before; apply_ops path img' after.
Proof.
  revert img. induction before as [|op before IH]; intros img.
  - change (apply_ops path img []) with (([] : list LogRecord), Ok img).
    rewrite bind_logged, app_nil_l.
    by destruct (apply_ops path img after).
  - rewrite <- app_comm_cons, !apply_ops_cons.
    destruct (_apply_op path img op) as [log1 [img1|e]];
      rewrite !bind_logged; [|done].
    rewrite IH.
    destruct (apply_ops path img1 before) as [log2 [img2|e]];
      rewrite !bind_logged; cbn [fst snd]; [|done].
    by rewrite app_assoc.
Qed.

Lemma apply_op_unknown path img op key :
  op !! "key" = Some key →
  recognized key = false →
  _apply_op path img op
  = ([applying_op path op; unknown_image_op path op], Ok img).
Proof.
  intros Hkey Hunknown. unfold recognized in Hunknown.
  repeat (apply orb_false_iff in Hunknown as [Hunknown ?]).
  unfold _apply_op, getitem. rewrite Hkey.
  unfold mbind, Logged_bind, liftL, log. simpl.
  change Ops.Autocontrast with "autocontrast".
  change Ops.Brightness with "brightness".
  change Ops.Contrast with "contrast".
  change Ops.Saturation with "saturation".
  change Ops.Crop with "crop".
  change Ops.Rotate with "rotate".
  by repeat match goal with Hk : is_str key _ = false |- _ =>
                     rewrite Hk; clear Hk end.
Qed.

(** C7.  An operation whose key is none of autocontrast, brightness,
    contrast, saturation, crop and rotate does not make [_apply_op] raise:
    the image comes back as it was and the key is logged as unknown; the
    operations after it are applied to that image, and the rendering gives
    what it gives without the operation. *)
Theorem unknown_op_is_skipped path op key :
  op !! "key" = Some key →
  recognized key = false →
  (∀ img,
     _apply_op path img op
     = ([applying_op path op; unknown_image_op path op], Ok img))
  ∧ (∀ img before after log1 img1,
       apply_ops path img before = (log1, Ok img1) →
       apply_ops path img (before ++ op :: after)
       = (log1 ++ [applying_op path op; unknown_image_op path op]
               ++ (apply_ops path img1 after).1,
          (apply_ops path img1 after).2))
  ∧ (∀ img before after,
       (apply_ops path img (before ++ op :: after)).2
       = (apply_ops path img (before ++ after)).2).
Proof.
  intros Hkey Hunknown.
  assert (Hskip : ∀ img after,
            apply_ops path img (op :: after)
            = ([applying_op path op; unknown_image_op path op]
                 ++ (apply_ops path img after).1,
               (apply_ops path img after).2)).
  { intros img after.
    by rewrite apply_ops_cons, (apply_op_unknown path img op key),
      bind_logged. }
  split_and!.
  - intros img. by apply (apply_op_unknown path img op key).
  - intros img before after log1 img1 Hbefore.
    by rewrite apply_ops_app, Hbefore, bind_logged, Hskip.
  - intros img before after. rewrite !apply_ops_app.
    destruct (apply_ops path img before) as [log1 [img1|e]];
      rewrite !bind_logged; [|done].
    by rewrite Hskip.
Qed.

(** C10.  The operation the mutator [autocontrast] appends has its key and
    nothing else, and for an autocontrast operation without a cutoff
    [_apply_op] asks the imaging library for the transform with the
    cutoff 0.5. *)
Theorem autocontrast_default_cutoff publish :
  (∀ ops,
     (autocontrast publish ops).1
     = ops ++ [ {[ "key" := PVal (VStr "autocontrast") ]} ])
  ∧ ({[ "key" := PVal (VStr "autocontrast") ]} : Op) !! "cutoff" = None
  ∧ (∀ path img op,
       op !! "key" = Some (PVal (VStr "autocontrast")) →
       op !! "cutoff" = None →
       _apply_op path img op
       = ([applying_op path op],
          pil_autocontrast img (PVal (VFloat (1 # 2))))).
Proof.
  split_and!; try done.
  intros path img op Hkey Hcutoff.
  unfold _apply_op, getitem. rewrite Hkey, Hcutoff.
  unfold mbind, Logged_bind, liftL, log. simpl.
  by destruct (pil_autocontrast img _).
Qed.

End RenderingFacts.

Lemma unknown_op_is_skipped_witness :
  apply_ops (H := Demo.runtime) (H0 := Demo.imaging)
            (H1 := Demo.mathlib) "a.jpg" []
    ([ {[ "key" := PVal (VStr "autocontrast") ]} ]
     ++ {[ "key" := PVal (VStr "unknown-op") ]}
     :: [ <["key" := PVal (VStr "brightness")]>
            {[ "level" := PVal (VInt 2) ]} ])
  = ([ applying_op "a.jpg" {[ "key" := PVal (VStr "autocontrast") ]};
       applying_op "a.jpg" {[ "key" := PVal (VStr "unknown-op") ]};
       unknown_image_op "a.jpg" {[ "key" := PVal (VStr "unknown-op") ]};
       applying_op "a.jpg"
         (<["key" := PVal (VStr "brightness")]>
            {[ "level" := PVal (VInt 2) ]}) ],
     Ok ["autocontrast 0.5"; "brightness"]%string).
Proof.
  destruct (unknown_op_is_skipped (H := Demo.runtime) (H0 := Demo.imaging)
                                  (H1 := Demo.mathlib)
              "a.jpg" {[ "key" := PVal (VStr "unknown-op") ]}
              (PVal (VStr "unknown-op")))
    as (_ & Hcontinue & _); [reflexivity | reflexivity |].
  rewrite (Hcontinue [] [ {[ "key" := PVal (VStr "autocontrast") ]} ]
             [ <["key" := PVal (VStr "brightness")]>
                 {[ "level" := PVal (VInt 2) ]} ]
             [ applying_op "a.jpg" {[ "key" := PVal (VStr "autocontrast") ]} ]
             ["autocontrast 0.5"%string]);
    by vm_compute.
Defined.

Lemma autocontrast_default_cutoff_witness :
  _apply_op (H := Demo.runtime) (H0 := Demo.imaging)
            (H1 := Demo.mathlib) "a.jpg" []
    {[ "key" := PVal (VStr "autocontrast") ]}
  = ([ applying_op "a.jpg" {[ "key" := PVal (VStr "autocontrast") ]} ],
     Ok ["autocontrast 0.5"%string]).
Proof.
  destruct (autocontrast_default_cutoff (H := Demo.runtime)
              (H0 := Demo.imaging) (H1 := Demo.mathlib) (fun _ => Ok tt))
    as (_ & _ & Hdefault).
  apply (Hdefault "a.jpg" [] {[ "key" := PVal (VStr "autocontrast") ]});
    reflexivity.
Defined.

(** ** Tags from the EXIF fields *)

Section ExifFacts.
Context `{Runtime}.
Variable normalized_tag_set : gset string → gset string.

Lemma with_field_absent (exif : gmap string Value) field block tags :
  exif !! field = None → with_field exif field block tags = Ok tags.
Proof. intros Hfield. unfold with_field. by rewrite Hfield. Qed.

Lemma with_field_raises (exif : gmap string Value) field block tags v e :
  exif !! field = Some v → block v = Raise e →
  with_field exif field block tags = Raise e.
Proof. intros Hfield Hblock. unfold with_field. by rewrite Hfield, Hblock. Qed.

Lemma shutter_speed_unreadable s :
  startswith "1/" s = false → shutter_speed_tag (VStr s) = Raise ValueError.
Proof. intros Hs. unfold shutter_speed_tag. by rewrite Hs. Qed.

Lemma highest_int n digits : ∃ h, highest (VInt n) digits = Ok h.
Proof.
  unfold highest. simpl. unfold mbind, Result_bind.
  destruct (Qltb _ _); eauto.
Qed.

(** C8, amended.  For a ShutterSpeed that is a text and does not start
    with [1/], [read_exif_tags] raises and returns no tag at all: the tags
    of FocalLength and Model are not derived.  The exception is the
    [ValueError] of ShutterSpeed whenever FNumber and ISO, where present,
    could be read. *)
Theorem unreadable_shutter_speed_aborts (exif : gmap string Value) s :
  exif !! "ShutterSpeed" = Some (VStr s) →
  startswith "1/" s = false →
  (∀ tags, read_exif_tags normalized_tag_set exif ≠ Ok tags)
  ∧ ((∀ v, exif !! "FNumber" = Some v → is_Ok (float v) = true) →
     (∀ v, exif !! "ISO" = Some v → is_Ok (int v) = true) →
     read_exif_tags normalized_tag_set exif = Raise ValueError).
Proof.
  intros Hshutter Hs.
  assert (Hnonempty : bool_decide (exif = ∅) = false).
  { case_bool_decide as Hempty; [|done].
    subst exif. by rewrite lookup_empty in Hshutter. }
  pose proof (shutter_speed_unreadable s Hs) as Hraise.
  unfold read_exif_tags. rewrite Hnonempty.
  split.
  - intros tags.
    destruct (with_field exif "FNumber" _ _) as [tags1|e1]; [|done].
    unfold mbind at 1, Result_bind at 1.
    destruct (with_field exif "ISO" _ _) as [tags2|e2]; [|done].
    unfold mbind at 1, Result_bind at 1.
    rewrite (with_field_raises exif "ShutterSpeed" _ tags2 (VStr s) ValueError);
      [done|done|].
    unfold mbind, Result_bind. by rewrite Hraise.
  - intros Hfnumber Hiso.
    destruct (with_field exif "FNumber" _ _) as [tags1|e1] eqn:Hstep1.
    2: { exfalso. unfold with_field in Hstep1.
         destruct (exif !! "FNumber") as [v|]; [|done].
         specialize (Hfnumber v eq_refl).
         destruct (float v); [|done]. by unfold mbind, Result_bind in Hstep1. }
    unfold mbind at 1, Result_bind at 1.
    destruct (with_field exif "ISO" _ _) as [tags2|e2] eqn:Hstep2.
    2: { exfalso. unfold with_field in Hstep2.
         destruct (exif !! "ISO") as [v|]; [|done].
         specialize (Hiso v eq_refl).
         destruct (int v) as [iso|]; [|done].
         unfold mbind, Result_bind in Hstep2.
         by destruct (highest_int iso (1 + (if 1000 <? iso then 1 else 0)))
           as [h Hh]; rewrite Hh in Hstep2. }
    unfold mbind at 1, Result_bind at 1.
    rewrite (with_field_raises exif "ShutterSpeed" _ tags2 (VStr s) ValueError);
      [done|done|].
    unfold mbind, Result_bind. by rewrite Hraise.
Qed.

End ExifFacts.

(** C8, as stated, fails: with a ShutterSpeed that cannot be read no tag
    comes back, though without it the same fields give their tags. *)
Lemma shutter_speed_loses_other_tags :
  read_exif_tags (H := Demo.runtime) (λ tags, tags)
    (<["ShutterSpeed" := VStr "fast"]>
       (<["FocalLength" := VStr "50.0 mm"]>
          (<["Model" := VStr "Canon EOS"]> ∅)))
  = Raise ValueError
  ∧ read_exif_tags (H := Demo.runtime) (λ tags, tags)
      (<["FocalLength" := VStr "50.0 mm"]>
         (<["Model" := VStr "Canon EOS"]> ∅))
    = Ok {[ "50mm"; "kit:eos" ]}.
Proof. by vm_compute. Qed.

Lemma unreadable_shutter_speed_aborts_witness :
  read_exif_tags (H := Demo.runtime) (λ tags, tags)
    (<["FNumber" := VFloat (28 # 10)]>
       (<["ISO" := VInt 400]>
          (<["ShutterSpeed" := VStr "0.5 s"]>
             (<["Model" := VStr "NIKON D80"]> ∅))))
  = Raise ValueError.
Proof.
  destruct (unreadable_shutter_speed_aborts (H := Demo.runtime) (λ tags, tags)
              (<["FNumber" := VFloat (28 # 10)]>
                 (<["ISO" := VInt 400]>
                    (<["ShutterSpeed" := VStr "0.5 s"]>
                       (<["Model" := VStr "NIKON D80"]> ∅))))
              "0.5 s")
    as [_ Hraise]; [reflexivity | reflexivity |].
  apply Hraise; intros v Hv; vm_compute in Hv; by simplify_eq.
Defined.

(** ** Tags in normal form *)

Section StringFacts.
Local Open Scope string_scope.

Lemma lower_char_idem c : lower_char (lower_char c) = lower_char c.
Proof. by destruct c as [[] [] [] [] [] [] [] []]. Qed.

Lemma is_space_lower_char c : is_space (lower_char c) = is_space c.
Proof. by destruct c as [[] [] [] [] [] [] [] []]. Qed.

Lemma is_upper_lower_char c : is_upper (lower_char c) = false.
Proof. by destruct c as [[] [] [] [] [] [] [] []]. Qed.

Lemma lower_char_not_upper c : is_upper c = false → lower_char c = c.
Proof. intros Hc. unfold lower_char. by rewrite Hc. Qed.

Lemma lower_idem s : lower (lower s) = lower s.
Proof.
  induction s as [|c s IH]; [done|].
  simpl. by rewrite lower_char_idem, IH.
Qed.

Lemma lower_app s t : lower (s ++ t) = lower s ++ lower t.
Proof. induction s as [|c s IH]; [done|]. simpl. by rewrite IH. Qed.

Lemma lower_nonempty s : nonempty (lower s) = nonempty s.
Proof. by destruct s. Qed.

Lemma no_upper_lower s : no_upper (lower s) = true.
Proof.
  induction s as [|c s IH]; [done|].
  simpl. by rewrite is_upper_lower_char, IH.
Qed.

Lemma no_space_lower s : no_space (lower s) = no_space s.
Proof.
  induction s as [|c s IH]; [done|].
  simpl. by rewrite is_space_lower_char, IH.
Qed.

Lemma no_upper_app s t : no_upper (s ++ t) = no_upper s && no_upper t.
Proof.
  induction s as [|c s IH]; [done|].
  simpl. by rewrite IH, andb_assoc.
Qed.

Lemma no_space_app s t : no_space (s ++ t) = no_space s && no_space t.
Proof.
  induction s as [|c s IH]; [done|].
  simpl. by rewrite IH, andb_assoc.
Qed.

Lemma lower_no_upper s : no_upper s = true → lower s = s.
Proof.
  induction s as [|c s IH]; [done|].
  simpl. intros [Hc Hs]%andb_true_iff.
  apply negb_true_iff in Hc.
  by rewrite lower_char_not_upper, IH.
Qed.

(** *** Stripping *)

(** The text is empty or starts with a character that is no space. *)
Lemma lstrip_head s :
  match lstrip s with
  | EmptyString => True
  | String c _ => is_space c = false
  end.
Proof.
  induction s as [|c s IH]; [done|].
  simpl. by destruct (is_space c) eqn:Hc; [|simpl].
Qed.

Lemma lstrip_fixed c s : is_space c = false → lstrip (String c s) = String c s.
Proof. intros Hc. simpl. by rewrite Hc. Qed.

Lemma rstrip_cons c s :
  rstrip s ≠ "" → rstrip (String c s) = String c (rstrip s).
Proof. intros Hs. simpl. by destruct (rstrip s). Qed.

Lemma rstrip_cons_nonspace c s :
  is_space c = false → rstrip (String c s) = String c (rstrip s).
Proof. intros Hc. simpl. destruct (rstrip s); [by rewrite Hc|done]. Qed.

Lemma rstrip_idem s : rstrip (rstrip s) = rstrip s.
Proof.
  induction s as [|c s IH]; [done|].
  simpl. destruct (rstrip s) as [|c' t] eqn:Hs.
  - destruct (is_space c) eqn:Hc; [done|]. simpl. by rewrite Hc.
  - by rewrite rstrip_cons; rewrite IH.
Qed.

Lemma strip_idem s : strip (strip s) = strip s.
Proof.
  unfold strip. pose proof (lstrip_head s) as Hhead.
  destruct (lstrip s) as [|c t]; [done|].
  rewrite rstrip_cons_nonspace by done.
  rewrite lstrip_fixed by done.
  by rewrite <- rstrip_cons_nonspace, rstrip_idem.
Qed.

Lemma lstrip_lower s : lstrip (lower s) = lower (lstrip s).
Proof.
  induction s as [|c s IH]; [done|].
  simpl. rewrite is_space_lower_char. by destruct (is_space c).
Qed.

Lemma rstrip_lower s : rstrip (lower s) = lower (rstrip s).
Proof.
  induction s as [|c s IH]; [done|].
  simpl. rewrite IH, is_space_lower_char.
  destruct (rstrip s); [|done]. simpl. by destruct (is_space c).
Qed.

Lemma strip_lower s : strip (lower s) = lower (strip s).
Proof. unfold strip. by rewrite lstrip_lower, rstrip_lower. Qed.

Lemma strip_no_space s : no_space s = true → strip s = s.
Proof.
  intros Hs. unfold strip.
  assert (lstrip s = s) as ->.
  { destruct s as [|c s]; [done|]. simpl in *.
    apply andb_true_iff in Hs as [Hc _]. apply negb_true_iff in Hc.
    by rewrite Hc. }
  induction s as [|c s IH]; [done|].
  simpl in Hs. apply andb_true_iff in Hs as [Hc Hs].
  apply negb_true_iff in Hc.
  by rewrite rstrip_cons_nonspace, IH.
Qed.

Lemma normal_plain s : no_upper s = true → no_space s = true → normal s.
Proof. intros. split; [by apply lower_no_upper|by apply strip_no_space]. Qed.

Lemma normal_lower_strip s : normal (lower (strip s)).
Proof.
  split; [apply lower_idem|].
  by rewrite strip_lower, strip_idem.
Qed.

(** *** Printed numbers *)

Lemma string_of_uint_plain d :
  no_upper (NilEmpty.string_of_uint d) = true
  ∧ no_space (NilEmpty.string_of_uint d) = true.
Proof. induction d; simpl; tauto. Qed.

Lemma str_of_int_plain n :
  no_upper (str_of_int n) = true ∧ no_space (str_of_int n) = true.
Proof.
  unfold str_of_int. destruct (Z.to_int n) as [d|d]; simpl;
    apply string_of_uint_plain.
Qed.

Lemma zeros_plain k : no_upper (zeros k) = true ∧ no_space (zeros k) = true.
Proof. induction k; simpl; tauto. Qed.

Lemma format_0d_plain w n :
  no_upper (format_0d w n) = true ∧ no_space (format_0d w n) = true.
Proof.
  unfold format_0d. destruct (n <? 0)%Z.
  - change ("-" ++ ?s) with (String "-" s). simpl.
    rewrite no_upper_app, no_space_app.
    destruct (zeros_plain (w - 1 - String.length (str_of_int (- n))))
      as [-> ->].
    by destruct (str_of_int_plain (- n)) as [-> ->].
  - rewrite no_upper_app, no_space_app.
    destruct (zeros_plain (w - String.length (str_of_int n))) as [-> ->].
    by destruct (str_of_int_plain n) as [-> ->].
Qed.

End StringFacts.

Section TagFacts.
Local Open Scope string_scope.

(** *** The tags of a time *)

Lemma normal_lower_no_space s : no_space s = true → normal (lower s).
Proof.
  intros Hs. apply normal_plain; [apply no_upper_lower|].
  by rewrite no_space_lower.
Qed.

Lemma names_no_space (names : list string) k :
  Forall (λ name, no_space name = true) names →
  no_space (default "" (names !! k)) = true.
Proof.
  intros Hnames. destruct (names !! k) as [name|] eqn:Hk; [|done].
  by apply (Forall_lookup_1 _ _ _ _ Hnames Hk).
Qed.

Lemma format_MMMM_no_space stamp : no_space (format_MMMM stamp) = true.
Proof. apply names_no_space. by repeat constructor. Qed.

Lemma format_dddd_no_space stamp : no_space (format_dddd stamp) = true.
Proof. apply names_no_space. by repeat constructor. Qed.

Lemma ordinal_suffix_no_space n : no_space (ordinal_suffix n) = true.
Proof. unfold ordinal_suffix. by repeat case_match. Qed.

Lemma format_Do_no_space stamp : no_space (format_Do stamp) = true.
Proof.
  unfold format_Do. rewrite no_space_app, ordinal_suffix_no_space.
  by destruct (str_of_int_plain (day stamp)) as [_ ->].
Qed.

Lemma format_ha_no_space stamp : no_space (format_ha stamp) = true.
Proof.
  unfold format_ha, ha_of_hour. rewrite no_space_app.
  destruct (str_of_int_plain
              (if (hour stamp mod 12 =? 0)%Z then 12%Z
               else (hour stamp mod 12)%Z)) as [_ ->].
  by destruct (hour stamp <? 12)%Z.
Qed.

Lemma gen_datetime_tags_normal stamp :
  Forall normal (gen_datetime_tags stamp).
Proof.
  destruct stamp as [stamp|]; [|constructor].
  unfold gen_datetime_tags.
  destruct (format_0d_plain 4 (year stamp)) as [Hy1 Hy2].
  destruct (format_0d_plain 2 (month stamp)) as [_ Hm].
  destruct (format_0d_plain 2 (day stamp)) as [_ Hd].
  destruct (str_of_int_plain (weekday stamp)) as [_ Hw].
  destruct (format_0d_plain 2 (hour (shift_minutes stamp 11))) as [_ Hh].
  repeat apply Forall_cons_2; [| | | | |constructor].
  - apply normal_plain; [by rewrite no_upper_app, Hy1|].
    by rewrite no_space_app, Hy2.
  - apply normal_lower_no_space.
    by rewrite !no_space_app, Hm, format_MMMM_no_space.
  - apply normal_lower_no_space.
    by rewrite !no_space_app, Hd, format_Do_no_space.
  - apply normal_lower_no_space.
    by rewrite !no_space_app, Hw, format_dddd_no_space.
  - apply normal_lower_no_space.
    by rewrite !no_space_app, Hh, format_ha_no_space.
Qed.

Lemma gen_datetime_tags_NoDup stamp : NoDup (gen_datetime_tags stamp).
Proof.
  destruct stamp as [stamp|]; [|constructor].
  apply (NoDup_fmap_1 head).
  change (NoDup [Some "y"; Some "m"; Some "d"; Some "w"; Some "h"]%char).
  compute_done.
Qed.

(** *** The normalisation of [retag] *)

Lemma elem_of_normalize tags t :
  t ∈ Retag.normalize tags
  ↔ ∃ raw, raw ∈ tags ∧ nonempty (strip raw) = true ∧ t = lower (strip raw).
Proof.
  unfold Retag.normalize.
  rewrite (merge_sort_Permutation Retag.str_le), elem_of_remove_dups,
    list_elem_of_fmap.
  split.
  - intros (raw & -> & Hraw).
    apply list_elem_of_In, filter_In in Hraw as [Hraw Hnonempty].
    exists raw. by rewrite list_elem_of_In.
  - intros (raw & Hraw & Hnonempty & ->). exists raw. split; [done|].
    apply list_elem_of_In, filter_In. by rewrite <- list_elem_of_In.
Qed.

Lemma normalize_NoDup tags : NoDup (Retag.normalize tags).
Proof.
  unfold Retag.normalize. rewrite (merge_sort_Permutation Retag.str_le).
  apply NoDup_remove_dups.
Qed.

End TagFacts.

(** *** The tags of the metadata *)

Section MetadataTagFacts.
Context `{Runtime}.
Local Open Scope string_scope.

Hypothesis repr_float_plain :
  ∀ x, no_upper (repr_float x) = true ∧ no_space (repr_float x) = true.

Lemma no_space_drop k s : no_space s = true → no_space (drop_str k s) = true.
Proof.
  revert s. induction k as [|k IH]; intros [|c s] Hs; try done.
  simpl in *. apply andb_true_iff in Hs as [_ Hs]. by apply IH.
Qed.

Lemma no_upper_drop k s : no_upper s = true → no_upper (drop_str k s) = true.
Proof.
  revert s. induction k as [|k IH]; intros [|c s] Hs; try done.
  simpl in *. apply andb_true_iff in Hs as [_ Hs]. by apply IH.
Qed.

Lemma remove_all_fuel_no_space fuel old s :
  no_space s = true → no_space (remove_all_fuel fuel old s) = true.
Proof.
  revert s. induction fuel as [|fuel IH]; intros s Hs; [done|].
  destruct s as [|c s]; [done|].
  cbn [remove_all_fuel]. destruct (startswith old (String c s)).
  - apply IH. by apply no_space_drop.
  - simpl in *. apply andb_true_iff in Hs as [-> Hs]. by apply IH.
Qed.

Lemma remove_all_fuel_no_upper fuel old s :
  no_upper s = true → no_upper (remove_all_fuel fuel old s) = true.
Proof.
  revert s. induction fuel as [|fuel IH]; intros s Hs; [done|].
  destruct s as [|c s]; [done|].
  cbn [remove_all_fuel]. destruct (startswith old (String c s)).
  - apply IH. by apply no_upper_drop.
  - simpl in *. apply andb_true_iff in Hs as [-> Hs]. by apply IH.
Qed.

Lemma bind_gen {A B} (tags : list string) (r : Result A) (k : A → Gen B) :
  (tags, r) ≫= k
  = match r with
    | Ok a => ((tags ++ (k a).1)%list, (k a).2)
    | Raise e => (tags, Raise e)
    end.
Proof. done. Qed.

Lemma bind_gen_yields {A B} (g : Gen A) (k : A → Gen B) :
  (g ≫= k).1 = g.1 ∨ ∃ a, (g ≫= k).1 = (g.1 ++ (k a).1)%list.
Proof.
  destruct g as [tags [a|e]]; rewrite bind_gen; [right; by exists a|by left].
Qed.

Lemma clean_model_stripped model :
  ∃ text,
    clean_model (_CAMERA_WORD_BLACKLIST ++ [LitEnd "ed"; LitEnd "is"])%list
                model
    = strip text.
Proof.
  change (_CAMERA_WORD_BLACKLIST ++ [LitEnd "ed"; LitEnd "is"])%list
    with ((_CAMERA_WORD_BLACKLIST ++ [LitEnd "ed"]) ++ [LitEnd "is"])%list.
  unfold clean_model. rewrite fold_left_app. by eexists.
Qed.

Lemma kit_tag_normal text :
  nonempty (strip text) = true → normal (lower ("kit:" ++ strip text)).
Proof.
  intros Hnonempty. split; [apply lower_idem|].
  rewrite strip_lower. f_equal.
  assert (rstrip (strip text) = strip text) as Hr by apply rstrip_idem.
  change ("kit:" ++ strip text)
    with (String "k" (String "i" (String "t" (String ":" (strip text))))).
  unfold strip at 1. rewrite lstrip_fixed by done.
  rewrite !rstrip_cons_nonspace by done. by rewrite Hr.
Qed.

Lemma gen_kit_tag_one meta : one_tag "k" (gen_kit_tag meta).1.
Proof.
  unfold gen_kit_tag, lift.
  destruct (lower_value _) as [model|e]; rewrite bind_gen; [|by left].
  destruct (clean_model_stripped model) as [text ->].
  destruct (nonempty (strip text)) eqn:Hnonempty; [|by left].
  right. eexists. split; [done|]. split; [done|].
  by apply kit_tag_normal.
Qed.

Lemma gen_aperture_tag_one meta : one_tag "a" (gen_aperture_tag meta).1.
Proof.
  unfold gen_aperture_tag, lift.
  match goal with
  | |- context [when ?present _] => destruct present
  end; [|by left].
  destruct (Metadata.float (default (VStr "") (meta !! "FNumber")))
    as [x|e]; rewrite bind_gen; [|by left].
  right. eexists. split; [done|]. split; [done|].
  destruct (repr_float_plain (inject_Z (round_half_even (10 * x)) / 10))
    as [Hupper Hspace].
  apply normal_plain.
  - apply remove_all_fuel_no_upper. by rewrite no_upper_app, Hupper.
  - apply remove_all_fuel_no_space. by rewrite no_space_app, Hspace.
Qed.

Lemma gen_focus_tag_one meta : one_tag "f" (gen_focus_tag meta).1.
Proof.
  unfold gen_focus_tag, lift.
  match goal with
  | |- context [match ?focal with Some _ => _ | None => _ end] =>
      destruct focal as [mm|]
  end; [|by left].
  destruct (truthy_value mm); [|by left].
  destruct (_round_to_most_significant_digits mm 1) as [n|e];
    rewrite bind_gen; [|by left].
  right. eexists. split; [done|]. split; [done|].
  destruct (str_of_int_plain n) as [Hupper Hspace].
  apply normal_plain.
  - by rewrite !no_upper_app, Hupper.
  - by rewrite !no_space_app, Hspace.
Qed.

Lemma one_tag_normal c tags : one_tag c tags → Forall normal tags.
Proof.
  intros [->|(tag & -> & _ & Htag)]; [constructor|].
  by apply Forall_singleton.
Qed.

Lemma one_tag_three (kit aperture focus : list string) :
  one_tag "k" kit → one_tag "a" aperture → one_tag "f" focus →
  NoDup (kit ++ aperture ++ focus)%list
  ∧ Forall normal (kit ++ aperture ++ focus)%list.
Proof.
  intros Hkit Haperture Hfocus. split.
  - destruct Hkit as [->|(k & -> & Hk & _)],
      Haperture as [->|(a & -> & Ha & _)],
      Hfocus as [->|(f & -> & Hf & _)];
      apply (NoDup_fmap_1 head); simpl; rewrite ?Hk, ?Ha, ?Hf; compute_done.
  - rewrite !Forall_app. split_and!; by eapply one_tag_normal.
Qed.

Lemma gen_metadata_tags_normal meta :
  NoDup (gen_metadata_tags meta).1 ∧ Forall normal (gen_metadata_tags meta).1.
Proof.
  unfold gen_metadata_tags.
  destruct (negb (truthy meta)); [by split; constructor|].
  pose proof (gen_kit_tag_one (mapping meta)) as Hkit.
  pose proof (gen_aperture_tag_one (mapping meta)) as Haperture.
  pose proof (gen_focus_tag_one (mapping meta)) as Hfocus.
  assert (Hnone : ∀ c, one_tag c []) by (by left).
  destruct (bind_gen_yields (gen_kit_tag (mapping meta))
              (λ _, gen_aperture_tag (mapping meta);;
                    gen_focus_tag (mapping meta))) as [->|[_ ->]].
  { rewrite <- (app_nil_r _). by apply (one_tag_three _ [] []). }
  destruct (bind_gen_yields (gen_aperture_tag (mapping meta))
              (λ _, gen_focus_tag (mapping meta))) as [->|[_ ->]].
  { rewrite <- (app_nil_r (gen_aperture_tag _).1).
    by apply one_tag_three. }
  by apply one_tag_three.
Qed.

End MetadataTagFacts.

(** C9.  The tags of [gen_metadata_tags], of [gen_datetime_tags] and of the
    normalisation of [retag] hold no tag twice, and each tag is in lower
    case with nothing to strip at either end; the normalisation keeps, of
    each text that does not strip to nothing, its stripped lower case, and
    so no empty text.  The printed form of a float is taken to hold no
    capital and no space. *)
Theorem tags_are_normalized `{Runtime} :
  (∀ x, no_upper (repr_float x) = true ∧ no_space (repr_float x) = true) →
  (∀ tags,
     NoDup (Retag.normalize tags)
     ∧ (∀ t, t ∈ Retag.normalize tags → t ≠ ""%string ∧ normal t)
     ∧ (∀ t, t ∈ Retag.normalize tags
             ↔ ∃ raw, raw ∈ tags ∧ nonempty (strip raw) = true
                      ∧ t = lower (strip raw)))
  ∧ (∀ stamp,
       NoDup (gen_datetime_tags stamp) ∧ Forall normal (gen_datetime_tags stamp))
  ∧ (∀ meta,
       NoDup (gen_metadata_tags meta).1
       ∧ Forall normal (gen_metadata_tags meta).1).
Proof.
  intros Hrepr. split_and!.
  - intros tags. split_and!.
    + apply normalize_NoDup.
    + intros t (raw & _ & Hnonempty & ->)%elem_of_normalize.
      split; [|apply normal_lower_strip].
      intros Hempty. by rewrite <- lower_nonempty, Hempty in Hnonempty.
    + intros t. apply elem_of_normalize.
  - intros stamp. split.
    + apply gen_datetime_tags_NoDup.
    + apply gen_datetime_tags_normal.
  - intros meta. by apply gen_metadata_tags_normal.
Qed.

Lemma fraction_digits_plain fuel r d :
  no_upper (Demo.fraction_digits fuel r d) = true
  ∧ no_space (Demo.fraction_digits fuel r d) = true.
Proof.
  revert r. induction fuel as [|fuel IH]; intros r; [done|].
  cbn [Demo.fraction_digits]. rewrite no_upper_app, no_space_app.
  destruct (str_of_int_plain (10 * r / d)) as [-> ->].
  destruct (10 * r mod d =? 0); [done|]. apply IH.
Qed.

Lemma repr_decimal_plain x :
  no_upper (Demo.repr_decimal x) = true ∧ no_space (Demo.repr_decimal x) = true.
Proof.
  unfold Demo.repr_decimal.
  rewrite !no_upper_app, !no_space_app.
  destruct (str_of_int_plain (Z.abs (Qnum x) / Z.pos (Qden x))) as [-> ->].
  destruct (fraction_digits_plain 17 (Z.abs (Qnum x) mod Z.pos (Qden x))
              (Z.pos (Qden x))) as [-> ->].
  by destruct (Qnum x <? 0).
Qed.

Lemma tags_are_normalized_witness :
  NoDup (Retag.normalize [" Foo"; "foo "; ""; "  "; "Bar"]%string)
  ∧ Forall normal
      (gen_metadata_tags (H := Demo.runtime)
         (Some (<["Model" := VStr "Canon EOS Rebel T2i"]>
                  (<["FNumber" := VFloat (28 # 10)]>
                     (<["FocalLength" := VStr "50.0 mm"]> ∅))))).1.
Proof.
  destruct (tags_are_normalized (H := Demo.runtime) repr_decimal_plain)
    as (Hretag & _ & Hmeta).
  split; [apply Hretag | apply Hmeta].
Defined.

(** * Further properties *)

(** ** Rounding, once more *)


Section MoreRoundFacts.
Context `{Runtime}.







End MoreRoundFacts.




(** ** The time stamp, once more *)

Lemma try_keys_returns arrow_get keys (meta : gmap string Value) :
  (∀ key stamp e,
     meta !! key = Some stamp →
     arrow_get stamp _TIMESTAMP_FORMATS = Raise e → e = ValueError) →
  try_keys arrow_get keys meta = None
  ∨ ∃ t, try_keys arrow_get keys meta = Some (Ok t).
Proof.
  intros Hparser. induction keys as [|key keys IH]; [by left|].
  simpl. destruct (meta !! key) as [stamp|] eqn:Hkey; [|done].
  destruct (arrow_get stamp _TIMESTAMP_FORMATS) as [t|e] eqn:Hget.
  - right. by exists t.
  - by rewrite (Hparser _ _ _ Hkey Hget).
Qed.

(** X5.  When the parser of times raises nothing but [ValueError] on the
    values of the metadata, [get_timestamp] returns a time, or
    [os.path.getmtime] has raised something other than [FileNotFoundError]
    and that exception leaves [get_timestamp]: of the failures of the file
    system only the absence of the file is caught.  So a time is returned
    whenever [os.path.getmtime] returns or finds no file, and without
    metadata every other exception of it comes through. *)
Theorem get_timestamp_returns_or_getmtime_raises arrow_get getmtime path meta :
  (∀ key stamp e,
     mapping meta !! key = Some stamp →
     arrow_get stamp _TIMESTAMP_FORMATS = Raise e → e = ValueError) →
  ((∃ t, get_timestamp arrow_get getmtime path meta = Ok t)
   ∨ (∃ e, e ≠ FileNotFoundError
           ∧ getmtime path = Raise e
           ∧ get_timestamp arrow_get getmtime path meta = Raise e))
  ∧ ((∀ e, getmtime path = Raise e → e = FileNotFoundError) →
     ∃ t, get_timestamp arrow_get getmtime path meta = Ok t)
  ∧ (∀ e, truthy meta = false → getmtime path = Raise e →
          e ≠ FileNotFoundError →
          get_timestamp arrow_get getmtime path meta = Raise e).
Proof.
  intros Hparser.
  assert (Hfile : (∃ t, match getmtime path with
                        | Ok mtime => Ok (of_timestamp mtime)
                        | Raise FileNotFoundError => Ok sentinel
                        | Raise e => Raise e
                        end = Ok t)
                  ∨ (∃ e, e ≠ FileNotFoundError
                          ∧ getmtime path = Raise e
                          ∧ match getmtime path with
                            | Ok mtime => Ok (of_timestamp mtime)
                            | Raise FileNotFoundError => Ok sentinel
                            | Raise e => Raise e
                            end = Raise e)).
  { destruct (getmtime path) as [mtime|e]; [left; by eexists|].
    destruct e; try (left; by eexists); right;
      (eexists; split_and!; [|reflexivity..]; discriminate). }
  assert (Hor : (∃ t, get_timestamp arrow_get getmtime path meta = Ok t)
                ∨ (∃ e, e ≠ FileNotFoundError
                        ∧ getmtime path = Raise e
                        ∧ get_timestamp arrow_get getmtime path meta
                          = Raise e)).
  { unfold get_timestamp. destruct (truthy meta); [|done].
    by destruct (try_keys_returns arrow_get _TIMESTAMP_KEYS (mapping meta)
                   Hparser) as [->|[t ->]]; [|left; exists t]. }
  split_and!; [done| |].
  - intros Hcaught. destruct Hor as [|(e & He & Hraise & _)]; [done|].
    by destruct (He (Hcaught e Hraise)).
  - intros e Hmeta Hraise He. rewrite get_timestamp_no_meta by done.
    rewrite Hraise. by destruct e.
Qed.

(** X6.  An exception of the parser that is no [ValueError] ends
    [get_timestamp]: at the first key that has a value which is not merely
    unreadable, the later keys, the modification time and the sentinel are
    not tried. *)
Theorem get_timestamp_lets_other_errors_through arrow_get getmtime
    path (meta : gmap string Value) before key after stamp e :
  _TIMESTAMP_KEYS = before ++ key :: after →
  Forall (gives_no_time arrow_get meta) before →
  meta !! key = Some stamp →
  arrow_get stamp _TIMESTAMP_FORMATS = Raise e →
  e ≠ ValueError →
  get_timestamp arrow_get getmtime path (Some meta) = Raise e.
Proof.
  intros Hkeys Hbefore Hkey Hget He. unfold get_timestamp.
  rewrite (truthy_lookup _ _ _ Hkey), Hkeys.
  change (mapping (Some meta)) with meta.
  rewrite try_keys_skip by done. simpl. rewrite Hkey, Hget.
  by destruct e.
Qed.

Lemma parse_any_raises layouts s e :
  Demo.parse_any layouts s = Raise e → e = ValueError.
Proof.
  induction layouts as [|layout layouts IH]; simpl; [congruence|].
  by destruct (Demo.parse layout s).
Qed.

Lemma get_timestamp_returns_or_getmtime_raises_witness :
  (∃ t, get_timestamp Demo.arrow_get (Demo.getmtime ∅) "a.jpg"
          (Some {[ "CreateDate" := VStr "soon" ]}) = Ok t)
  ∧ get_timestamp Demo.arrow_get (λ _, Raise PermissionError) "a.jpg"
      (Some ∅) = Raise PermissionError.
Proof.
  split.
  - destruct (get_timestamp_returns_or_getmtime_raises Demo.arrow_get
                (Demo.getmtime ∅) "a.jpg"
                (Some {[ "CreateDate" := VStr "soon" ]}))
      as (_ & Hreturns & _).
    + intros key stamp e Hkey. change (mapping (Some ?m)) with m in Hkey.
      apply lookup_singleton_Some in Hkey as [_ <-].
      apply parse_any_raises.
    + apply Hreturns. intros e. unfold Demo.getmtime.
      rewrite lookup_empty. congruence.
  - destruct (get_timestamp_returns_or_getmtime_raises Demo.arrow_get
                (λ _, Raise PermissionError) "a.jpg" (Some ∅))
      as (_ & _ & Hraises).
    + intros key stamp e Hkey. change (mapping (Some ?m)) with m in Hkey.
      by rewrite lookup_empty in Hkey.
    + by apply Hraises.
Defined.

Lemma get_timestamp_lets_other_errors_through_witness :
  get_timestamp Demo.arrow_get (Demo.getmtime ∅) "a.jpg"
    (Some (<["DateTimeOriginal" := VStr "no date"]>
             (<["CreateDate" := VInt 2009]>
                (<["ModifyDate" := VStr "2009:01:22 10:49:00"]> ∅))))
  = Raise TypeError.
Proof.
  apply (get_timestamp_lets_other_errors_through Demo.arrow_get
           (Demo.getmtime ∅) "a.jpg" _
           ["DateTimeOriginal"] "CreateDate" ["ModifyDate"; "FileModifyDate"]
           (VInt 2009)).
  - reflexivity.
  - repeat constructor.
  - reflexivity.
  - reflexivity.
  - discriminate.
Defined.

(** ** The tags of the metadata, once more *)



Section MoreMetadataTagFacts.
Context `{Runtime}.
Local Open Scope string_scope.



Lemma gen_kit_tag_text (meta : gmap string Value) s :
  default (default (VStr "") (meta !! "Model")) (meta !! "CameraModelName")
  = VStr s →
  (gen_kit_tag meta).2 = Ok tt.
Proof.
  intros Hmodel. unfold gen_kit_tag, lift. rewrite Hmodel.
  unfold lower_value. rewrite bind_gen.
  by destruct (nonempty (clean_model _ _)).
Qed.


(** X8.  A camera model that is a number ends [gen_metadata_tags] with
    [AttributeError] before any tag is yielded: the aperture and the focal
    length are not looked at. *)
Theorem numeric_model_yields_no_tag (meta : gmap string Value) :
  meta ≠ ∅ →
  (∀ s, default (default (VStr "") (meta !! "Model"))
                (meta !! "CameraModelName") ≠ VStr s) →
  gen_metadata_tags (Some meta) = ([], Raise AttributeError).
Proof.
  intros Hmeta Hmodel. unfold gen_metadata_tags, truthy.
  rewrite bool_decide_eq_false_2 by done. simpl.
  unfold gen_kit_tag, lift.
  destruct (default _ _) as [n|x|s]; [done..|].
  by destruct (Hmodel s).
Qed.

(** X9.  A text in FNumber that starts with a digit but that [float] cannot
    read ends [gen_metadata_tags] with the exception of [float]: the tag of
    the camera has been yielded, the tag of the focal length is lost. *)
Theorem unreadable_fnumber_loses_focus_tag (meta : gmap string Value) s f e :
  default (default (VStr "") (meta !! "Model")) (meta !! "CameraModelName")
  = VStr s →
  meta !! "FNumber" = Some (VStr f) →
  match_float f = true →
  float_of_str f = Raise e →
  gen_metadata_tags (Some meta) = ((gen_kit_tag meta).1, Raise e).
Proof.
  intros Hmodel Hf Hmatch Hfloat. unfold gen_metadata_tags.
  rewrite (truthy_lookup _ _ _ Hf). simpl.
  pose proof (gen_kit_tag_text meta s Hmodel) as Hkit.
  destruct (gen_kit_tag meta) as [kit [[]|]]; [|done].
  rewrite bind_gen. simpl.
  unfold gen_aperture_tag, lift. rewrite Hf. simpl. rewrite Hmatch, Hfloat.
  simpl. by rewrite app_nil_r.
Qed.

End MoreMetadataTagFacts.


Lemma numeric_model_yields_no_tag_witness :
  gen_metadata_tags (H := Demo.runtime)
    (Some (<["Model" := VInt 5]> (<["FNumber" := VFloat 4]> ∅)))
  = ([], Raise AttributeError).
Proof.
  apply (numeric_model_yields_no_tag (H := Demo.runtime)).
  - intros Hempty.
    by apply (f_equal (λ m : gmap string Value, m !! "Model"%string)) in Hempty.
  - intros s. discriminate.
Defined.

Lemma unreadable_fnumber_loses_focus_tag_witness :
  gen_metadata_tags (H := Demo.runtime)
    (Some (<["Model" := VStr "Canon EOS Rebel T2i"]>
             (<["FNumber" := VStr "2.8 or so"]>
                (<["FocalLength" := VStr "50.0 mm"]> ∅))))
  = (["kit:eos rebel t2i"%string], Raise ValueError).
Proof.
  rewrite (unreadable_fnumber_loses_focus_tag (H := Demo.runtime) _
             "Canon EOS Rebel T2i"%string "2.8 or so"%string ValueError);
    reflexivity.
Defined.

(** ** The operation list, once more *)

Section MoreMutatorFacts.
Variable publish : list Op → Result unit.

Lemma round_half_even_le q N :
  (q <= inject_Z N)%Q → round_half_even q ≤ N.
Proof.
  destruct q as [n d]. unfold Qle, round_half_even. simpl.
  rewrite Z.mul_1_r. intros Hle.
  pose proof (Z.div_mod n (Z.pos d) ltac:(lia)) as Hdiv.
  pose proof (Z.mod_pos_bound n (Z.pos d) ltac:(lia)) as Hmod.
  repeat case_match; rewrite ?Z.ltb_lt, ?Z.ltb_ge in *; nia.
Qed.

Lemma round_half_even_nonneg q : (0 <= q)%Q → 0 ≤ round_half_even q.
Proof.
  destruct q as [n d]. unfold Qle, round_half_even. simpl.
  rewrite Z.mul_1_r. intros Hle.
  pose proof (Z.div_pos n (Z.pos d) ltac:(lia) ltac:(lia)).
  repeat case_match; lia.
Qed.

(** Rounding keeps a number between 0 and 360 there: both are numbers of
    53 bits. *)
Lemma round_double_in_turn y :
  (0 < y)%Q → (y < 360)%Q →
  (0 <= round_double y)%Q ∧ (round_double y <= 360)%Q.
Proof.
  intros Hpos Hlt. unfold round_double.
  destruct (Qeq_bool y 0) eqn:Hzero.
  { apply Qeq_bool_eq in Hzero. rewrite Hzero in Hpos.
    by apply Qlt_irrefl in Hpos. }
  set (k0 := Z.log2 (Z.abs (Qnum y)) - Z.log2 (Z.pos (Qden y))).
  set (k := if Qle_bool (scale2 1 k0) (Qabs y) then k0 else k0 - 1).
  assert (Hn : 0 < Qnum y) by (unfold Qlt in Hpos; simpl in Hpos; lia).
  assert (Hk0 : k0 ≤ 9).
  { unfold k0. rewrite Z.abs_eq by lia.
    assert (Hnum : Qnum y < 2 ^ 9 * Z.pos (Qden y))
      by (unfold Qlt in Hlt; simpl in Hlt; lia).
    assert (Hlog : Z.log2 (Qnum y) ≤ Z.log2 (2 ^ 9 * Z.pos (Qden y)))
      by (apply Z.log2_le_mono; lia).
    rewrite Z.mul_comm, Z.log2_mul_pow2 in Hlog by lia. lia. }
  assert (Hk : k ≤ 9) by (unfold k; case_match; lia).
  clearbody k. clear k0 Hk0.
  unfold scale2.
  destruct (Z.leb_spec 0 (- (k - 52))) as [_|]; [|lia].
  destruct (Z.leb_spec 0 (k - 52)) as [|_]; [lia|].
  destruct (Z.ltb_spec (Qnum y) 0) as [|_]; [lia|].
  set (p := 2 ^ (- (k - 52))).
  assert (Hp : 0 < p) by (apply Z.pow_pos_nonneg; lia).
  assert (Hy : Qabs y = y)
    by (destruct y as [n d]; simpl in *; by rewrite Z.abs_eq by lia).
  rewrite Hy.
  set (m := round_half_even (y * inject_Z p)).
  assert (Hm0 : 0 ≤ m).
  { apply round_half_even_nonneg.
    apply Qmult_le_0_compat; [by apply Qlt_le_weak|].
    unfold Qle; simpl; lia. }
  assert (Hm1 : m ≤ 360 * p).
  { apply round_half_even_le. rewrite inject_Z_mult.
    apply Qmult_le_compat_r; [by apply Qlt_le_weak|].
    unfold Qle; simpl; lia. }
  rewrite Qred_correct.
  destruct p as [|p|p]; try lia.
  unfold Qle, Qdiv, Qmult, Qinv; simpl. lia.
Qed.

(** What [fmod(x, 360.0)] leaves is less than a turn on either side. *)
Lemma fmod360_bounds x :
  let r := (x - 360 * inject_Z (trunc (x / 360)))%Q in
  (- (360) < r)%Q ∧ (r < 360)%Q ∧ ((0 <= x)%Q → (0 <= r)%Q).
Proof.
  destruct x as [n d]. unfold trunc, Qlt, Qle. simpl.
  rewrite !Z.mul_1_r.
  pose proof (Z.quot_rem' n (Z.pos (d * 360))) as Hquot.
  pose proof (Z.rem_bound_abs n (Z.pos (d * 360)) ltac:(lia)) as Habs.
  pose proof (Z.rem_nonneg n (Z.pos (d * 360)) ltac:(lia)) as Hnonneg.
  set (q := n ÷ Z.pos (d * 360)) in *.
  set (m := Z.rem n (Z.pos (d * 360))) in *.
  rewrite Pos2Z.inj_mul in *.
  split_and!; [nia|nia|intros Hx; nia].
Qed.

Lemma mod360_in_turn d : in_turn (mod360 d).
Proof.
  destruct d as [a|x]; unfold mod360, in_turn; [apply Z.mod_pos_bound; lia|].
  destruct (fmod360_bounds x) as (Hlow & Hhigh & _).
  set (r := (x - 360 * inject_Z (trunc (x / 360)))%Q) in *.
  unfold Qltb. destruct (Qle_bool 0 r) eqn:Hr; simpl.
  - apply Qle_bool_iff in Hr. split; [done|by apply Qlt_le_weak].
  - assert (r < 0)%Q as Hneg.
    { apply Qnot_le_lt. intros Hle. apply Qle_bool_iff in Hle. congruence. }
    clearbody r. apply round_double_in_turn; lra.
Qed.

Lemma well_formed_rotate_op d : in_turn d → well_formed (rotate_op d).
Proof. intros Hd. split; [by eexists|]. intros _. by exists d. Qed.

Lemma well_formed_plain key params :
  String.eqb key Ops.Rotate = false →
  well_formed (<["key" := PVal (VStr key)]> params).
Proof.
  intros Hkey. split.
  - rewrite lookup_insert_eq. by eexists.
  - by rewrite is_rotate_add_op, Hkey.
Qed.

Lemma add_op_result key op ops :
  _add_op publish key op ops
  = (ops ++ [<["key" := PVal (VStr key)]> op],
     publish (ops ++ [<["key" := PVal (VStr key)]> op])).
Proof.
  unfold _add_op, append, get_ops, liftM, mbind, M_bind. simpl.
  by destruct (publish _).
Qed.

Lemma rotate_op_degrees d : rotate_op d !! "degrees" = Some (PVal (of_num d)).
Proof. done. Qed.

Lemma rotate_op_key d : rotate_op d !! "key" = Some (PVal (VStr Ops.Rotate)).
Proof. done. Qed.

(** What [rotate] does on a list of well-formed operations. *)
Lemma rotate_well_formed degrees ops :
  Forall well_formed ops →
  ∃ base d,
    rotate publish degrees ops
    = (base ++ [rotate_op (mod360 d)],
       publish (base ++ [rotate_op (mod360 d)]))
    ∧ Forall well_formed base
    ∧ List.filter plain base = List.filter plain ops.
Proof.
  intros Hops. destruct (last ops) as [op|] eqn:Hlast.
  - apply last_Some in Hlast as [ops' ->].
    rewrite Forall_app, Forall_singleton in Hops.
    destruct Hops as [Hops' [[key Hkey] Hop]].
    destruct (is_rotate op) eqn:Hrotate.
    + destruct (Hop eq_refl) as (d & -> & _).
      exists ops', (plus degrees d). split_and!; [|done|].
      * unfold rotate, mbind, M_bind, get_ops, liftM, getitem, mret, M_ret.
        rewrite last_snoc, rotate_op_key. simpl. unfold pop.
        rewrite last_snoc, removelast_last, rotate_op_degrees, add_of_num.
        apply add_op_result.
      * rewrite List.filter_app. simpl. unfold plain at 3.
        rewrite is_rotate_rotate_op. simpl. by rewrite app_nil_r.
    + exists (ops' ++ [op]), degrees. split_and!; [| |done].
      * unfold rotate, mbind, M_bind, get_ops, liftM, getitem, mret, M_ret.
        rewrite last_snoc, Hkey. unfold is_rotate in Hrotate.
        rewrite Hkey in Hrotate. rewrite Hrotate.
        apply add_op_result.
      * apply Forall_app. split; [done|]. apply Forall_singleton.
        split; [by exists key|by rewrite Hrotate].
  - apply last_None in Hlast as ->. exists [], degrees.
    split_and!; [|done..].
    unfold rotate, mbind, M_bind, get_ops, liftM, getitem, mret, M_ret.
    simpl. apply add_op_result.
Qed.

Lemma call_well_formed c ops :
  Forall well_formed ops →
  call publish c ops = ((call publish c ops).1, publish (call publish c ops).1)
  ∧ Forall well_formed (call publish c ops).1.
Proof.
  intros Hops. destruct c as [degrees|box|level|level|level|].
  - simpl. destruct (rotate_well_formed degrees ops Hops)
      as (base & d & -> & Hbase & _).
    split; [done|]. simpl. apply Forall_app. split; [done|].
    apply Forall_singleton, well_formed_rotate_op, mod360_in_turn.
  - simpl. unfold crop. rewrite add_op_result. split; [done|]. simpl.
    apply Forall_app. split; [done|].
    by apply Forall_singleton, well_formed_plain.
  - simpl. unfold brightness. rewrite add_op_result. split; [done|]. simpl.
    apply Forall_app. split; [done|].
    by apply Forall_singleton, well_formed_plain.
  - simpl. unfold contrast. rewrite add_op_result. split; [done|]. simpl.
    apply Forall_app. split; [done|].
    by apply Forall_singleton, well_formed_plain.
  - simpl. unfold saturation. rewrite add_op_result. split; [done|]. simpl.
    apply Forall_app. split; [done|].
    by apply Forall_singleton, well_formed_plain.
  - simpl. unfold autocontrast. rewrite add_op_result. split; [done|]. simpl.
    apply Forall_app. split; [done|].
    by apply Forall_singleton, well_formed_plain.
Qed.

Lemma run_well_formed calls ops :
  Forall well_formed ops → Forall well_formed (run publish calls ops).
Proof.
  revert ops. induction calls as [|c calls IH]; intros ops Hops; [done|].
  apply IH. by apply call_well_formed.
Qed.

Lemma run_snoc calls c ops :
  run publish (calls ++ [c]) ops = (call publish c (run publish calls ops)).1.
Proof. unfold run. by rewrite fold_left_app. Qed.

(** X10.  Every rotate operation of a list that the mutators have built
    from the empty one holds nothing but its key and an angle of one turn:
    an [int] from 0 up to, and without, 360, or a [float] from 0.0 up to
    360.0.  The float 360.0 itself is stored when a remainder just below
    zero is brought into the turn: after [rotate(0.3)] and three times
    [rotate(-0.1)] the sum is [-2^-55], and the list holds the rotate by
    360.0. *)
Theorem rotations_stay_within_a_turn :
  (∀ calls op,
     op ∈ run publish calls [] →
     is_rotate op = true →
     ∃ d, op = rotate_op d ∧ in_turn d)
  ∧ run publish
      [ call_rotate (Float (round_double (3 # 10)));
        call_rotate (Float (round_double (- (1 # 10))));
        call_rotate (Float (round_double (- (1 # 10))));
        call_rotate (Float (round_double (- (1 # 10)))) ] []
    = [rotate_op (Float 360)].
Proof.
  split.
  - intros calls op Hop Hrotate.
    pose proof (run_well_formed calls [] ltac:(constructor)) as Hall.
    rewrite Forall_forall in Hall. by apply (Hall op Hop).
  - by vm_compute.
Qed.

End MoreMutatorFacts.





(** X12.  A call of [rotate] leaves the other operations as they are and in
    their order, and a call of another mutator appends its operation: in
    the list after any calls, the operations that are no rotate are those
    the list had, followed by those of the calls, in the order of the
    calls. *)
Theorem mutators_keep_the_other_operations publish calls ops :
  List.filter plain (run publish calls ops)
  = List.filter plain ops ++ omap plain_op calls.
Proof.
  revert ops. induction calls as [|c calls IH]; intros ops.
  { simpl. by rewrite app_nil_r. }
  simpl. rewrite IH. clear IH.
  assert (List.filter plain (call publish c ops).1
          = List.filter plain ops
            ++ match plain_op c with Some op => [op] | None => [] end) as ->.
  { destruct c as [degrees|box|level|level|level|]; cbn [call plain_op];
      unfold crop, brightness, contrast, saturation, autocontrast;
      rewrite ?add_op_state, ?List.filter_app; try done.
    rewrite app_nil_r.
    destruct (last ops) as [op|] eqn:Hlast.
    - apply last_Some in Hlast as [ops' ->].
      destruct (is_rotate op) eqn:Hrotate.
      + assert (List.filter plain (ops' ++ [op]) = List.filter plain ops') as ->.
        { rewrite List.filter_app. simpl. unfold plain at 2.
          rewrite Hrotate. simpl. by rewrite app_nil_r. }
        destruct (rotate_state_rotate publish degrees ops' op Hrotate)
          as [->|[sum ->]]; [done|].
        rewrite List.filter_app. simpl. unfold plain at 2.
        rewrite is_rotate_rotate_op. simpl. by rewrite app_nil_r.
      + destruct (rotate_state_other publish degrees ops' op Hrotate)
          as [->| ->]; [done|].
        change (ops' ++ [op; rotate_op (mod360 degrees)])
          with (ops' ++ [op] ++ [rotate_op (mod360 degrees)]).
        rewrite app_assoc, (List.filter_app _ (ops' ++ [op])). simpl.
        unfold plain at 2. rewrite is_rotate_rotate_op. simpl.
        by rewrite app_nil_r.
    - apply last_None in Hlast as ->. by rewrite rotate_state_empty. }
  rewrite <- app_assoc. by destruct (plain_op c).
Qed.

Lemma run_cons publish c calls ops :
  run publish (c :: calls) ops = run publish calls (call publish c ops).1.
Proof. done. Qed.

Lemma rotations_merge_into_last publish ds a ops :
  run publish (call_rotate ∘ Int <$> ds) (ops ++ [rotate_op (Int (a mod 360))])
  = ops ++ [rotate_op (Int ((a + foldr Z.add 0 ds) mod 360))].
Proof.
  revert a. induction ds as [|d ds IH]; intros a.
  { simpl. by rewrite Z.add_0_r. }
  rewrite fmap_cons, run_cons. cbn [compose call].
  rewrite (rotate_state_merge publish (Int d) ops _ (Int (a mod 360)))
    by done.
  cbn [plus mod360]. rewrite Zplus_mod_idemp_r, IH.
  cbn [foldr].
  by replace (d + a + foldr Z.add 0 ds) with (a + (d + foldr Z.add 0 ds)) by lia.
Qed.

(** X13.  Rotations that follow one another add up: [rotate(d)] called for
    each [d] of a list of whole degrees, starting from the empty list,
    leaves one operation, the rotate by the sum of the angles modulo 360. *)
Theorem consecutive_rotations_add_up publish d ds :
  run publish (call_rotate ∘ Int <$> d :: ds) []
  = [rotate_op (Int ((d + foldr Z.add 0 ds) mod 360))].
Proof.
  rewrite fmap_cons, run_cons. cbn [compose call].
  rewrite rotate_state_empty. cbn [mod360].
  apply (rotations_merge_into_last publish ds d []).
Qed.

(** X14.  [rotate] takes the last rotate off the list before it reads its
    angle: when the operation has no angle, or one that is a text, the call
    raises and the operation is gone from the list. *)
Theorem failed_merge_drops_the_rotation publish degrees ops op :
  op !! "key" = Some (PVal (VStr "rotate")) →
  (op !! "degrees" = None →
   rotate publish degrees (ops ++ [op]) = (ops, Raise KeyError))
  ∧ (∀ s, op !! "degrees" = Some (PVal (VStr s)) →
          rotate publish degrees (ops ++ [op]) = (ops, Raise TypeError)).
Proof.
  intros Hkey.
  split; [intros Hdegrees|intros s Hdegrees];
    unfold rotate, mbind, M_bind, get_ops, liftM, getitem, mret, M_ret, pop;
    rewrite last_snoc, Hkey; simpl;
    rewrite last_snoc, removelast_last, Hdegrees; [done|].
  by destruct degrees.
Qed.

Lemma rotations_stay_within_a_turn_witness :
  ∃ d, rotate_op (Float (21 # 2)) = rotate_op d ∧ in_turn d.
Proof.
  apply (proj1 (rotations_stay_within_a_turn (λ _, Ok tt))
           [call_autocontrast; call_rotate (Int 350);
            call_rotate (Float (41 # 2))]).
  - apply list_elem_of_In. right. left. reflexivity.
  - reflexivity.
Defined.

Lemma failed_merge_drops_the_rotation_witness :
  rotate (λ _, Ok tt) (Int 10)
    ([ {[ "key" := PVal (VStr "autocontrast") ]} ]
     ++ [ {[ "key" := PVal (VStr "rotate") ]} ])
  = ([ {[ "key" := PVal (VStr "autocontrast") ]} ], Raise KeyError).
Proof.
  destruct (failed_merge_drops_the_rotation (λ _, Ok tt) (Int 10)
              [ {[ "key" := PVal (VStr "autocontrast") ]} ]
              {[ "key" := PVal (VStr "rotate") ]}) as [Hnone _];
    [reflexivity|].
  apply Hnone. reflexivity.
Defined.

(** ** Rendering, once more *)

Lemma trunc_scale_bounds w x :
  0 ≤ w → (0 <= x)%Q → (x <= 1)%Q → 0 ≤ trunc (inject_Z w * x) ≤ w.
Proof.
  intros Hw Hx0 Hx1. unfold trunc, Qle in *. simpl in *.
  rewrite Z.mul_1_r in *. rewrite ?Pos.mul_1_l.
  rewrite Z.quot_div_nonneg by nia.
  split.
  - apply Z.div_pos; nia.
  - apply Z.div_le_upper_bound; nia.
Qed.

Lemma trunc_scale_mono w x y :
  0 ≤ w → (0 <= x)%Q → (x <= y)%Q →
  trunc (inject_Z w * x) ≤ trunc (inject_Z w * y).
Proof.
  intros Hw Hx Hxy.
  assert (0 <= y)%Q as Hy by exact (Qle_trans _ _ _ Hx Hxy).
  unfold trunc, Qle in *. simpl in *. rewrite Z.mul_1_r in *.
  rewrite !Pos.mul_1_l.
  rewrite !Z.quot_div_nonneg by nia.
  apply Z.div_le_lower_bound; [lia|].
  pose proof (Z.mul_div_le (w * Qnum x) (Z.pos (Qden x)) ltac:(lia)).
  set (q := w * Qnum x / Z.pos (Qden x)) in *.
  assert (0 ≤ q) by (apply Z.div_pos; nia).
  apply (Z.mul_le_mono_pos_l _ _ (Z.pos (Qden x))); [lia|].
  assert (w * (Qnum x * Z.pos (Qden y)) ≤ w * (Qnum y * Z.pos (Qden x)))
    by (by apply Z.mul_le_mono_nonneg_l).
  nia.
Qed.

Section MoreRenderingFacts.
Context `{Runtime} `{Imaging} `{MathLib}.

Lemma int_times w n :
  int (times w (of_num n)) = Ok (trunc (inject_Z w * as_Q n)).
Proof.
  destruct n as [k|x]; simpl; [|done]. by rewrite trunc_product.
Qed.

(** X15.  The rendering stops at the first operation that fails: the
    exception of that operation is the result, the operations after it are
    neither applied nor logged. *)
Theorem rendering_stops_at_failure path img before op after log1 img1 log2 e :
  apply_ops path img before = (log1, Ok img1) →
  _apply_op path img1 op = (log2, Raise e) →
  apply_ops path img (before ++ op :: after) = (log1 ++ log2, Raise e).
Proof.
  intros Hbefore Hop.
  by rewrite apply_ops_app, Hbefore, bind_logged, apply_ops_cons, Hop,
    bind_logged.
Qed.

Lemma bind_logged_fst {A B} (m : Logged A) (k : A → Logged B) :
  (m ≫= k).1 = m.1 ∨ ∃ a, (m ≫= k).1 = m.1 ++ (k a).1.
Proof.
  destruct m as [log1 [a|e]]; rewrite bind_logged; [right; by exists a|by left].
Qed.

Lemma liftL_bind_quiet {A B} (r : Result A) (k : A → Logged B) :
  (∀ a, List.filter is_applying (k a).1 = []) →
  List.filter is_applying (liftL r ≫= k).1 = [].
Proof.
  intros Hk. unfold liftL. rewrite bind_logged. destruct r as [a|e]; [|done].
  simpl. apply Hk.
Qed.

Lemma apply_op_log path img op :
  ∃ rest,
    (_apply_op path img op).1 = applying_op path op :: rest
    ∧ List.filter is_applying rest = [].
Proof.
  unfold _apply_op, log. rewrite bind_logged. cbn [fst snd].
  eexists. split; [done|].
  apply liftL_bind_quiet. intros key.
  repeat match goal with
         | |- context [if ?b then _ else _] => destruct b
         end;
    try (by destruct (pil_autocontrast _ _));
    repeat (apply liftL_bind_quiet; intros ?);
    repeat match goal with
           | |- context [let '(_, _) := ?p in _] => destruct p
           end;
    repeat (apply liftL_bind_quiet; intros ?);
    try done.
Qed.

(** X16.  The log of a rendering announces the operations in their order,
    one record for each operation that was begun, and every operation when
    the rendering succeeds. *)
Theorem log_announces_each_operation path img ops :
  ∃ begun later,
    ops = begun ++ later
    ∧ List.filter is_applying (apply_ops path img ops).1
      = applying_op path <$> begun
    ∧ (is_Ok (apply_ops path img ops).2 = true → later = []).
Proof.
  revert img. induction ops as [|op ops IH]; intros img.
  { by exists [], []. }
  rewrite apply_ops_cons.
  destruct (apply_op_log path img op) as (rest & Hlog & Hrest).
  destruct (_apply_op path img op) as [log1 [img1|e]]; rewrite bind_logged;
    cbn [fst snd] in *; subst log1.
  - destruct (IH img1) as (begun & later & -> & Hbegun & Hlater).
    exists (op :: begun), later. split; [done|]. split; [|done].
    rewrite List.filter_app. cbn [List.filter is_applying].
    rewrite Hrest, Hbegun. by rewrite fmap_cons.
  - exists [op], ops. split; [done|]. split; [|done].
    cbn [List.filter is_applying]. by rewrite Hrest.
Qed.

(** X17.  The operation that [crop] appends for a box of fractions between
    0 and 1, the left and upper ones not beyond the right and lower ones,
    is rendered as a crop to a box of pixels that lies within the picture
    and has its corners in the same order. *)
Theorem crop_box_within_picture publish path img ops a b c d w h :
  image_size img = (w, h) → 0 ≤ w → 0 ≤ h →
  (0 <= as_Q a)%Q → (as_Q a <= as_Q c)%Q → (as_Q c <= 1)%Q →
  (0 <= as_Q b)%Q → (as_Q b <= as_Q d)%Q → (as_Q d <= 1)%Q →
  ∃ op x1 y1 x2 y2,
    (crop publish [a; b; c; d] ops).1 = ops ++ [op]
    ∧ _apply_op path img op
      = ([applying_op path op], pil_crop img [x1; y1; x2; y2])
    ∧ 0 ≤ x1 ≤ x2 ∧ x2 ≤ w ∧ 0 ≤ y1 ≤ y2 ∧ y2 ≤ h.
Proof.
  intros Hsize Hw Hh Ha Hac Hc Hb Hbd Hd.
  assert (0 <= as_Q c)%Q by exact (Qle_trans _ _ _ Ha Hac).
  assert (0 <= as_Q d)%Q by exact (Qle_trans _ _ _ Hb Hbd).
  assert (as_Q a <= 1)%Q by exact (Qle_trans _ _ _ Hac Hc).
  assert (as_Q b <= 1)%Q by exact (Qle_trans _ _ _ Hbd Hd).
  eexists _, (trunc (inject_Z w * as_Q a)), (trunc (inject_Z h * as_Q b)),
    (trunc (inject_Z w * as_Q c)), (trunc (inject_Z h * as_Q d)).
  split; [unfold crop; apply add_op_state|].
  split.
  - unfold _apply_op, getitem, log, liftL.
    rewrite lookup_insert_eq, bind_logged. cbn [fst snd].
    rewrite bind_logged. cbn [fst snd is_str].
    change (String.eqb Ops.Crop Ops.Autocontrast) with false.
    change (String.eqb Ops.Crop Ops.Brightness) with false.
    change (String.eqb Ops.Crop Ops.Contrast) with false.
    change (String.eqb Ops.Crop Ops.Saturation) with false.
    change (String.eqb Ops.Crop Ops.Crop) with true.
    cbn iota.
    rewrite lookup_insert_ne, lookup_singleton_eq by done.
    rewrite bind_logged. cbn [fst snd fmap list_fmap unpack4].
    rewrite bind_logged. cbn [fst snd]. rewrite Hsize.
    rewrite !int_times, !bind_logged. cbn [fst snd].
    by destruct (pil_crop img _).
  - pose proof (trunc_scale_bounds w (as_Q a) Hw ltac:(done) ltac:(done)).
    pose proof (trunc_scale_bounds w (as_Q c) Hw ltac:(done) ltac:(done)).
    pose proof (trunc_scale_bounds h (as_Q b) Hh ltac:(done) ltac:(done)).
    pose proof (trunc_scale_bounds h (as_Q d) Hh ltac:(done) ltac:(done)).
    pose proof (trunc_scale_mono w (as_Q a) (as_Q c) Hw ltac:(done) ltac:(done)).
    pose proof (trunc_scale_mono h (as_Q b) (as_Q d) Hh ltac:(done) ltac:(done)).
    lia.
Qed.

(** X18.  A rotation by a whole number of turns is kept as the rotate by 0
    degrees, and rendering it crops nothing: after the rotation of the
    imaging library the box is the whole picture as it was before, for a
    picture whose sides are below [2^53] and so are numbers of binary64. *)
Theorem full_turn_crops_nothing publish path img k w h :
  image_size img = (w, h) →
  0 ≤ w < 2 ^ 53 → 0 ≤ h < 2 ^ 53 →
  run publish [call_rotate (Int (360 * k))] [] = [rotate_op (Int 0)]
  ∧ _apply_op path img (rotate_op (Int 0))
    = ([applying_op path (rotate_op (Int 0))],
       img' ← pil_rotate img (PVal (VInt 0)); pil_crop img' [0; 0; w; h]).
Proof.
  intros Hsize Hw Hh. split.
  - cbn [run fold_left call]. rewrite rotate_state_empty. cbn [mod360].
    by rewrite Z.mul_comm, Z.mod_mul.
  - unfold _apply_op, getitem, log, liftL.
    rewrite rotate_op_key, bind_logged. cbn [fst snd].
    rewrite bind_logged. cbn [fst snd is_str].
    change (String.eqb Ops.Rotate Ops.Autocontrast) with false.
    change (String.eqb Ops.Rotate Ops.Brightness) with false.
    change (String.eqb Ops.Rotate Ops.Contrast) with false.
    change (String.eqb Ops.Rotate Ops.Saturation) with false.
    change (String.eqb Ops.Rotate Ops.Crop) with false.
    change (String.eqb Ops.Rotate Ops.Rotate) with true.
    cbn iota. rewrite Hsize, rotate_op_degrees, bind_logged.
    cbn [fst snd of_num].
    change (radians (PVal (VInt 0))) with (Ok Float64.zero).
    destruct (pil_rotate img (PVal (VInt 0))) as [img'|e];
      rewrite !bind_logged; cbn [fst snd]; [|done].
    rewrite crop_after_rotate_zero by done. cbn [fst snd app].
    unfold mbind, Result_bind. by destruct (pil_crop img' _).
Qed.

End MoreRenderingFacts.

Lemma rendering_stops_at_failure_witness :
  apply_ops (H := Demo.runtime) (H0 := Demo.imaging)
            (H1 := Demo.mathlib) "a.jpg" []
    ([ {[ "key" := PVal (VStr "autocontrast") ]} ]
     ++ {[ "key" := PVal (VStr "brightness") ]}
     :: [ {[ "key" := PVal (VStr "autocontrast") ]} ])
  = ([ applying_op "a.jpg" {[ "key" := PVal (VStr "autocontrast") ]} ]
     ++ [ applying_op "a.jpg" {[ "key" := PVal (VStr "brightness") ]} ],
     Raise KeyError).
Proof.
  apply (rendering_stops_at_failure (H := Demo.runtime) (H0 := Demo.imaging)
                                    (H1 := Demo.mathlib)
           "a.jpg" [] _ _ _ _ ["autocontrast 0.5"%string]);
    reflexivity.
Defined.

Lemma crop_box_within_picture_witness :
  ∃ op x1 y1 x2 y2,
    (crop (λ _, Ok tt) [Float (1 # 4); Int 0; Float (3 # 4); Int 1] []).1
    = [] ++ [op]
    ∧ _apply_op (H := Demo.runtime) (H0 := Demo.imaging)
                (H1 := Demo.mathlib) "a.jpg" [] op
      = ([applying_op "a.jpg" op],
         pil_crop (Imaging := Demo.imaging) [] [x1; y1; x2; y2])
    ∧ 0 ≤ x1 ≤ x2 ∧ x2 ≤ 400 ∧ 0 ≤ y1 ≤ y2 ∧ y2 ≤ 100.
Proof.
  apply (crop_box_within_picture (H := Demo.runtime) (H0 := Demo.imaging)
                                 (H1 := Demo.mathlib));
    try reflexivity; try lia; by vm_compute.
Defined.

Lemma full_turn_crops_nothing_witness :
  run (λ _, Ok tt) [call_rotate (Int (360 * 2))] [] = [rotate_op (Int 0)]
  ∧ _apply_op (H := Demo.runtime) (H0 := Demo.imaging)
              (H1 := Demo.mathlib) "a.jpg" []
      (rotate_op (Int 0))
    = ([applying_op "a.jpg" (rotate_op (Int 0))],
       img' ← pil_rotate (Imaging := Demo.imaging) [] (PVal (VInt 0));
       pil_crop (Imaging := Demo.imaging) img' [0; 0; 400; 100]).
Proof.
  apply (full_turn_crops_nothing (H := Demo.runtime) (H0 := Demo.imaging)
           (H1 := Demo.mathlib)); [reflexivity|lia..].
Defined.

(** ** The crop box of a rotation, once more *)

(** The sum of two numbers does not depend on their order. *)
Lemma float_add_comm x y : (x + y)%f64 = (y + x)%f64.
Proof.
  destruct x as [[]|[]| |sx mx ex], y as [[]|[]| |sy my ey]; try done.
  unfold Float64.add, SFadd.
  by rewrite (Z.min_comm ey ex), Z.add_comm.
Qed.

Section MoreGeometryFacts.
Context `{MathLib}.

(** X19.  The crop box depends on the angle through the absolute values of
    the cosine and of the sine that the C library returns, and on nothing
    else: two angles where these agree get the same box, or the same
    exception.  An angle and the angle half a turn further are no such
    pair: the library returns -0.7071067811865477 for the cosine of
    [math.radians(225)] and 0.7071067811865476 for that of
    [math.radians(45)], and the boxes of a picture of 1000 by 667 at the
    two angles differ. *)
Theorem crop_box_of_opposite_turns :
  (∀ w h angle angle' c s c' s',
     cos angle = Ok c → sin angle = Ok s →
     cos angle' = Ok c' → sin angle' = Ok s' →
     Float64.abs c' = Float64.abs c → Float64.abs s' = Float64.abs s →
     _crop_after_rotate w h angle' = _crop_after_rotate w h angle)
  ∧ (cos angle_45 = Ok cos_45 → sin angle_45 = Ok sin_45 →
     cos angle_225 = Ok cos_225 → sin angle_225 = Ok sin_225 →
     radians (PVal (VInt 225)) = Ok angle_225
     ∧ _crop_after_rotate 1000 667 angle_45
       = Ok [ -530223551737770240; 530223551737770752;
              530223551737771392; -530223551737769600 ]
     ∧ _crop_after_rotate 1000 667 angle_225
       = Ok [ -353482367825180160; 353482367825180800;
              353482367825181312; -353482367825179648 ]).
Proof.
  split.
  - intros w h angle angle' c s c' s' Hc Hs Hc' Hs' Hcos Hsin.
    unfold _crop_after_rotate, crop_offsets.
    rewrite Hc, Hs, Hc', Hs'. cbn [mbind Result_bind].
    by rewrite Hcos, Hsin.
  - intros Hc Hs Hc' Hs'. split_and!; [by vm_compute| |];
      unfold _crop_after_rotate, crop_offsets;
      rewrite ?Hc, ?Hs, ?Hc', ?Hs'; by vm_compute.
Qed.

(** X21.  A square picture gets a square box: the two offsets are one and
    the same number, and so are the two sides of the canvas, whatever the
    rounding.  At 45 degrees, where the formula has no value in exact
    arithmetic, a picture of 100 by 100 gets the box [32, 32, 109, 109]. *)
Theorem crop_box_of_square_picture :
  (∀ w angle box,
     _crop_after_rotate w w angle = Ok box →
     ∃ a c, box = [a; a; c; c])
  ∧ (cos angle_45 = Ok cos_45 → sin angle_45 = Ok sin_45 →
     _crop_after_rotate 100 100 angle_45 = Ok [32; 32; 109; 109]).
Proof.
  split.
  - intros w angle box. unfold _crop_after_rotate, crop_offsets.
    destruct (cos angle) as [c|]; [|done].
    destruct (sin angle) as [s|]; [|done].
    cbn [mbind Result_bind].
    destruct (Float64.of_int w) as [x|]; [|done].
    cbn [mbind Result_bind].
    destruct (divide _ _) as [f|]; [|done].
    cbn [mbind Result_bind].
    rewrite (float_add_comm (x * Float64.abs s)%f64 (x * Float64.abs c)%f64).
    destruct (Float64.to_int (f * _)%f64) as [a|]; [|done].
    cbn [mbind Result_bind].
    destruct (Float64.to_int (_ - _)%f64) as [d|]; [|done].
    cbn [mbind Result_bind]. intros [= <-]. by exists a, d.
  - intros Hc Hs. unfold _crop_after_rotate, crop_offsets.
    rewrite Hc, Hs. by vm_compute.
Qed.

End MoreGeometryFacts.

Lemma crop_box_of_opposite_turns_witness :
  _crop_after_rotate (H := Demo.mathlib) 1000 667 angle_45
  = Ok [ -530223551737770240; 530223551737770752;
         530223551737771392; -530223551737769600 ]
  ∧ _crop_after_rotate (H := Demo.mathlib) 1000 667 angle_225
    = Ok [ -353482367825180160; 353482367825180800;
           353482367825181312; -353482367825179648 ].
Proof.
  apply (proj2 (crop_box_of_opposite_turns (H := Demo.mathlib)));
    by vm_compute.
Defined.

Lemma crop_box_of_square_picture_witness :
  ∃ a c,
    _crop_after_rotate (H := Demo.mathlib) 100 100 angle_30 = Ok [a; a; c; c].
Proof.
  destruct (proj1 (crop_box_of_square_picture (H := Demo.mathlib))
              100 angle_30 [31; 31; 104; 104]) as (a & c & Hbox);
    [by vm_compute|].
  exists a, c. rewrite <- Hbox. by vm_compute.
Defined.

(** ** Tags from the EXIF fields, once more *)

Lemma trunc_small_quotient d : (1000 < d)%Q → trunc (1000 / d) = 0.
Proof.
  intros Hd. destruct d as [n q]. unfold Qlt in Hd. simpl in Hd.
  destruct n as [|p|p]; try lia.
  unfold trunc. simpl. apply Z.quot_small. lia.
Qed.

Section MoreExifFacts.
Context `{Runtime}.

(** X22.  The tag of the shutter speed is a whole number of milliseconds
    that is at least 1: a speed of [1/d] with [d] above 1000 gives [1ms],
    and [1/0] raises [ZeroDivisionError]. *)
Theorem shutter_tag_at_least_one_ms :
  (∀ v t, shutter_speed_tag v = Ok t →
          ∃ k, 1 ≤ k ∧ t = (str_of_int k ++ "ms")%string)
  ∧ (∀ s d, startswith "1/" s = true →
            float_of_str (drop_str 2 s) = Ok d →
            (1000 < d)%Q →
            shutter_speed_tag (VStr s) = Ok "1ms"%string)
  ∧ (∀ s d, startswith "1/" s = true →
            float_of_str (drop_str 2 s) = Ok d →
            (d == 0)%Q →
            shutter_speed_tag (VStr s) = Raise ZeroDivisionError).
Proof.
  split_and!.
  - intros v t. unfold shutter_speed_tag.
    match goal with
    | |- context [@mbind _ _ _ _ _ ?m] => destruct m as [n|e]
    end; [|done].
    unfold mbind at 1, Result_bind at 1.
    destruct (highest (VInt n) 1) as [h|e]; [|done].
    intros [= <-]. exists (Z.max 1 h). split; [lia|done].
  - intros s d Hs Hfloat Hd. unfold shutter_speed_tag.
    rewrite Hs, Hfloat. unfold mbind, Result_bind.
    assert (Qeq_bool d 0 = false) as ->.
    { apply not_true_is_false. intros Hzero%Qeq_bool_iff.
      rewrite Hzero in Hd. discriminate. }
    by rewrite trunc_small_quotient.
  - intros s d Hs Hfloat Hd. unfold shutter_speed_tag.
    rewrite Hs, Hfloat. unfold mbind, Result_bind.
    by rewrite (proj2 (Qeq_bool_iff d 0) Hd).
Qed.

End MoreExifFacts.

Lemma shutter_tag_at_least_one_ms_witness :
  shutter_speed_tag (H := Demo.runtime) (VStr "1/4000") = Ok "1ms"%string
  ∧ shutter_speed_tag (H := Demo.runtime) (VStr "1/0")
    = Raise ZeroDivisionError.
Proof.
  destruct (shutter_tag_at_least_one_ms (H := Demo.runtime))
    as (_ & Hfast & Hzero).
  split.
  - by apply (Hfast "1/4000"%string 4000%Q).
  - by apply (Hzero "1/0"%string 0%Q).
Defined.

(** ** The older derivation of the time, once more *)

Lemma hour_shift_twelve stamp :
  hour (shift_minutes stamp 12)
  = if minute stamp <? 48 then hour stamp else (hour stamp + 1) mod 24.
Proof.
  unfold hour, minute, shift_minutes. simpl.
  destruct (Z.ltb_spec ((epoch stamp mod 3600) / 60) 48);
    Z.div_mod_to_equations; lia.
Qed.

Lemma hour_range stamp : 0 ≤ hour stamp < 24.
Proof. unfold hour. Z.div_mod_to_equations. lia. Qed.

Lemma strip_zeros_hour_label h :
  0 ≤ h < 24 →
  let h12 := if h mod 12 =? 0 then 12 else h mod 12 in
  let meridian := if h <? 12 then "AM"%string else "PM"%string in
  rstrip_zeros (lstrip_zeros (format_0d 2 h12 ++ meridian)%string)
  = (str_of_int h12 ++ meridian)%string.
Proof.
  intros Hh. rewrite <- (Z2Nat.id h) by lia.
  assert (Z.to_nat h < 24)%nat as Hn by lia.
  generalize dependent (Z.to_nat h). clear. intros n Hn.
  do 24 (destruct n as [|n]; [reflexivity|]). lia.
Qed.

(** X23.  The hour label of the older [datetime_tag_set]: the hour of the
    time twelve minutes later on the 12-hour clock, without a zero in front
    and with AM or PM, so from 48 minutes past an hour it is the label of
    the next hour. *)
Theorem datetime_tag_set_hour_label normalized_tag_set stamp :
  let h := if minute stamp <? 48 then hour stamp
           else (hour stamp + 1) mod 24 in
  let h12 := if h mod 12 =? 0 then 12 else h mod 12 in
  let meridian := if h <? 12 then "AM"%string else "PM"%string in
  datetime_tag_set normalized_tag_set (Some stamp)
  = normalized_tag_set
      [ str_of_int (year stamp); format_MMMM stamp; format_dddd stamp;
        ordinal (day stamp);
        (str_of_int h12 ++ meridian)%string ].
Proof.
  intros h h12 meridian. unfold datetime_tag_set, strftime_Ip.
  pose proof (hour_range (shift_minutes stamp 12)) as Hrange.
  rewrite (strip_zeros_hour_label _ Hrange).
  by rewrite hour_shift_twelve.
Qed.

(** For a day of a month, 1 to 31, the older [ordinal] writes the day
    as the format [Do] does, which [gen_datetime_tags] uses: 1st, 2nd, 3rd,
    11th, 12th, 13th, 21st, 22nd, 23rd, 31st and [th] for the others. *)
Lemma ordinal_of_a_day n :
  1 ≤ n ≤ 31 →
  ordinal n = (str_of_int n ++ ordinal_suffix n)%string
  ∧ (ordinal_suffix n = "st"%string ↔ n = 1 ∨ n = 21 ∨ n = 31)
  ∧ (ordinal_suffix n = "nd"%string ↔ n = 2 ∨ n = 22)
  ∧ (ordinal_suffix n = "rd"%string ↔ n = 3 ∨ n = 23).
Proof.
  intros Hn. rewrite <- (Z2Nat.id n) by lia.
  assert (0 < Z.to_nat n < 32)%nat as Hk by lia.
  generalize dependent (Z.to_nat n). clear. intros k Hk.
  destruct k as [|k]; [lia|].
  do 31 (destruct k as [|k];
         [split; [reflexivity|]; split_and!; (split; [try done; lia|try done; lia])|]).
  lia.
Qed.

Section MoreStampFacts.
Variable strptime : string → string → option Arrow.
Variable now : Arrow.

Lemma first_stamp_skip (exif : gmap string Value) before keys :
  Forall (λ key, compute_timestamp_from strptime exif key = None) before →
  first_stamp strptime exif (before ++ keys) = first_stamp strptime exif keys.
Proof.
  induction 1 as [|key before Hkey _ IH]; [done|].
  simpl. by rewrite Hkey.
Qed.

(** X24.  The older [Photo.create] takes the time of the first of
    DateTimeOriginal, CreateDate, ModifyDate and FileModifyDate that gives
    one, and the present time when none does.  A key gives a time when its
    value is a text whose first 19 characters fit one of the two layouts;
    a number is passed over, without an exception. *)
Theorem create_stamp_resolution (exif : gmap string Value) :
  (∀ before key after t,
     ["DateTimeOriginal"; "CreateDate"; "ModifyDate"; "FileModifyDate"]%string
     = before ++ key :: after →
     Forall (λ key, compute_timestamp_from strptime exif key = None) before →
     compute_timestamp_from strptime exif key = Some t →
     create_stamp strptime now exif = t)
  ∧ (Forall (λ key, compute_timestamp_from strptime exif key = None)
       ["DateTimeOriginal"; "CreateDate"; "ModifyDate"; "FileModifyDate"]%string →
     create_stamp strptime now exif = now)
  ∧ (∀ key text,
       exif !! key = Some (VStr text) → text ≠ ""%string →
       compute_timestamp_from strptime exif key
       = match strptime (take_str 19 text) "%Y:%m:%d %H:%M:%S" with
         | Some t => Some t
         | None => strptime (take_str 19 text) "%Y:%m:%d %H:%M+%S"
         end)
  ∧ (∀ key, (∀ text, exif !! key ≠ Some (VStr text)) →
            compute_timestamp_from strptime exif key = None).
Proof.
  split_and!.
  - intros before key after t Hkeys Hbefore Hkey. unfold create_stamp.
    rewrite Hkeys, first_stamp_skip by done. simpl. by rewrite Hkey.
  - intros Hnone. unfold create_stamp.
    rewrite <- (app_nil_r [_; _; _; _]), first_stamp_skip by done. done.
  - intros key text Hkey Htext. unfold compute_timestamp_from.
    rewrite Hkey. by destruct text.
  - intros key Hkey. unfold compute_timestamp_from.
    destruct (exif !! key) as [[n|x|text]|]; try done.
    + by destruct (truthy_value (VInt n)).
    + by destruct (truthy_value (VFloat x)).
    + by destruct (Hkey text).
Qed.

End MoreStampFacts.

Lemma create_stamp_resolution_witness :
  create_stamp
    (λ text layout,
       if String.eqb layout "%Y:%m:%d %H:%M:%S"
       then Demo.parse "YYYY:MM:DD HH:mm:ss" text else None)
    sentinel
    (<["DateTimeOriginal" := VInt 2009]>
       (<["CreateDate" := VStr "2009:01:22 10:49:00+01:00"]> ∅))
  = from_civil 2009 1 22 10 49 0.
Proof.
  destruct (create_stamp_resolution
              (λ text layout,
                 if String.eqb layout "%Y:%m:%d %H:%M:%S"
                 then Demo.parse "YYYY:MM:DD HH:mm:ss" text else None)
              sentinel
              (<["DateTimeOriginal" := VInt 2009]>
                 (<["CreateDate" := VStr "2009:01:22 10:49:00+01:00"]> ∅)))
    as (Hfirst & _).
  apply (Hfirst ["DateTimeOriginal"%string] "CreateDate"%string
           ["ModifyDate"; "FileModifyDate"]%string).
  - reflexivity.
  - repeat constructor.
  - reflexivity.
Defined.

(** ** The path of the thumbnail *)

(** The paths of some ids. *)
Lemma thumb_path_examples :
  thumb_path 1 = "00000/00000001.jpg"%string
  ∧ thumb_path 43981 = "0000a/0000abcd.jpg"%string
  ∧ thumb_path 4886718345 = "123456/123456789.jpg"%string
  ∧ thumb_path (-1) = "-0000/-0000001.jpg"%string.
Proof. by vm_compute. Qed.

Lemma length_append s t :
  String.length (s ++ t)%string = (String.length s + String.length t)%nat.
Proof. induction s as [|c s IH]; [done|]. simpl. by rewrite IH. Qed.

Lemma append_inj_r s s' t : (s ++ t = s' ++ t)%string → s = s'.
Proof.
  revert s'. induction s as [|c s IH]; intros [|c' s'] Heq.
  - done.
  - apply (f_equal String.length) in Heq.
    rewrite !length_append in Heq. simpl in Heq. lia.
  - apply (f_equal String.length) in Heq.
    rewrite !length_append in Heq. simpl in Heq. lia.
  - change (String c (s ++ t) = String c' (s' ++ t))%string in Heq.
    injection Heq as -> Heq. f_equal. by apply IH.
Qed.

Lemma length_zeros k : String.length (zeros k) = k.
Proof. induction k; simpl; congruence. Qed.

Lemma no_sep_app s t : no_sep (s ++ t)%string = no_sep s && no_sep t.
Proof.
  induction s as [|c s IH]; [done|]. simpl. by rewrite IH, andb_assoc.
Qed.

Lemma no_sep_zeros k : no_sep (zeros k) = true.
Proof. induction k; [done|]. simpl. done. Qed.

Lemma no_sep_take k s : no_sep s = true → no_sep (take_str k s) = true.
Proof.
  revert s. induction k as [|k IH]; intros [|c s] Hs; try done.
  simpl in *. apply andb_true_iff in Hs as [-> Hs]. by apply IH.
Qed.

Lemma no_sep_hex_uint u :
  no_sep (HexadecimalString.NilEmpty.string_of_uint u) = true.
Proof. induction u; simpl; done. Qed.

Lemma hex_nonempty n : nonempty (hex n) = true.
Proof.
  unfold hex. destruct n as [|p]; [done|]. simpl.
  pose proof (HexadecimalPos.Unsigned.to_uint_nonnil p) as Hnil.
  by destruct (Pos.to_hex_uint p).
Qed.

Lemma format_08x_no_sep n : no_sep (format_08x n) = true.
Proof.
  unfold format_08x, hex.
  destruct (n <? 0); simpl; rewrite !no_sep_app, no_sep_zeros, no_sep_hex_uint;
    done.
Qed.

Lemma format_08x_length n : (8 ≤ String.length (format_08x n))%nat.
Proof.
  unfold format_08x. destruct (n <? 0); simpl;
    rewrite !length_append, length_zeros; lia.
Qed.

Lemma uint_of_string_zeros k u :
  HexadecimalString.NilEmpty.uint_of_string
    (zeros k ++ HexadecimalString.NilEmpty.string_of_uint u)%string
  = Some (Nat.iter k Hexadecimal.D0 u).
Proof.
  induction k as [|k IH]; simpl.
  - apply HexadecimalString.NilEmpty.usu.
  - by rewrite IH.
Qed.

Lemma of_hex_uint_zeros k u :
  N.of_hex_uint (Nat.iter k Hexadecimal.D0 u) = N.of_hex_uint u.
Proof. induction k as [|k IH]; [done|]. simpl. exact IH. Qed.

Lemma head_not_minus k u :
  u ≠ Hexadecimal.Nil →
  ∃ c r, (zeros k ++ HexadecimalString.NilEmpty.string_of_uint u)%string
         = String c r ∧ Ascii.eqb c "-" = false.
Proof.
  intros Hu. destruct k as [|k]; simpl; [|by eexists _, _].
  destruct u; try done; simpl; by eexists _, _.
Qed.

Lemma to_hex_uint_nonnil n : N.to_hex_uint n ≠ Hexadecimal.Nil.
Proof.
  destruct n as [|p]; [done|]. apply HexadecimalPos.Unsigned.to_uint_nonnil.
Qed.

Lemma parse_08x_minus r :
  parse_08x ("-" ++ r)%string
  = (λ u, - Z.of_N (N.of_hex_uint u))
      <$> HexadecimalString.NilEmpty.uint_of_string r.
Proof. done. Qed.

Lemma parse_format_08x n : parse_08x (format_08x n) = Some n.
Proof.
  unfold format_08x, hex. destruct (Z.ltb_spec n 0) as [Hneg|Hpos].
  - rewrite parse_08x_minus, uint_of_string_zeros. simpl.
    rewrite of_hex_uint_zeros, HexadecimalN.Unsigned.of_to. f_equal. lia.
  - destruct (head_not_minus (8 - String.length
                (HexadecimalString.NilEmpty.string_of_uint
                   (N.to_hex_uint (Z.to_N n))))
                (N.to_hex_uint (Z.to_N n)) (to_hex_uint_nonnil _))
      as (c & r & Heq & Hc).
    unfold parse_08x. rewrite Heq, Hc, <- Heq.
    rewrite uint_of_string_zeros. simpl.
    rewrite of_hex_uint_zeros, HexadecimalN.Unsigned.of_to. f_equal. lia.
Qed.

Lemma split_at_last_sep_plain s :
  no_sep s = true → PosixPath.split_at_last_sep s = (EmptyString, s).
Proof.
  induction s as [|c s IH]; [done|]. simpl.
  intros [Hc Hs]%andb_true_iff. rewrite (IH Hs). simpl.
  by destruct (Ascii.eqb c PosixPath.sep).
Qed.

Lemma split_at_last_sep_app a b :
  no_sep b = true →
  PosixPath.split_at_last_sep (a ++ String PosixPath.sep b)%string
  = ((a ++ String PosixPath.sep EmptyString)%string, b).
Proof.
  intros Hb. induction a as [|c a IH].
  - simpl. by rewrite (split_at_last_sep_plain b Hb).
  - simpl. rewrite IH.
    by assert (nonempty (a ++ String PosixPath.sep "")%string = true) as ->
      by (by destruct a).
Qed.

Lemma ends_with_sep_plain s : no_sep s = true → PosixPath.ends_with_sep s = false.
Proof.
  induction s as [|c s IH]; [done|]. simpl.
  intros [Hc Hs]%andb_true_iff. destruct s; [|by apply IH].
  by destruct (Ascii.eqb c PosixPath.sep).
Qed.

Lemma rstrip_sep_plain s : no_sep s = true → PosixPath.rstrip_sep s = s.
Proof.
  induction s as [|c s IH]; [done|]. simpl.
  intros [Hc Hs]%andb_true_iff. rewrite (IH Hs).
  destruct s; [|done]. by destruct (Ascii.eqb c PosixPath.sep).
Qed.

Lemma rstrip_sep_app s :
  no_sep s = true →
  PosixPath.rstrip_sep (s ++ String PosixPath.sep EmptyString)%string = s.
Proof.
  induction s as [|c s IH]; [done|]. simpl.
  intros [Hc Hs]%andb_true_iff. rewrite (IH Hs).
  destruct s; [|done]. by destruct (Ascii.eqb c PosixPath.sep).
Qed.

Lemma join_plain a b :
  nonempty a = true → no_sep a = true → no_sep b = true →
  PosixPath.join a b = (a ++ String PosixPath.sep b)%string.
Proof.
  intros Ha Hsep Hb. unfold PosixPath.join.
  rewrite Ha, (ends_with_sep_plain a Hsep).
  destruct b as [|c b]; [done|]. cbn [no_sep] in Hb.
  apply andb_true_iff in Hb as [Hc _]. cbn [startswith].
  rewrite Ascii.eqb_sym. by destruct (Ascii.eqb c PosixPath.sep).
Qed.

Lemma dirname_join a b :
  nonempty a = true → no_sep a = true → no_sep b = true →
  PosixPath.dirname (a ++ String PosixPath.sep b)%string = a
  ∧ PosixPath.basename (a ++ String PosixPath.sep b)%string = b.
Proof.
  intros Ha Hsep Hb. unfold PosixPath.dirname, PosixPath.basename.
  rewrite split_at_last_sep_app by done. cbn [fst snd]. split; [|done].
  destruct a as [|c a]; [done|]. simpl in Hsep.
  apply andb_true_iff in Hsep as [Hc Hsep].
  assert (PosixPath.all_sep (String c a ++ String PosixPath.sep "")%string
          = false) as ->.
  { simpl. by destruct (Ascii.eqb c PosixPath.sep). }
  simpl negb. cbn [nonempty append andb].
  apply (rstrip_sep_app (String c a)). simpl.
  by rewrite Hc, Hsep.
Qed.

Lemma nonempty_take k s :
  (0 < k)%nat → nonempty s = true → nonempty (take_str k s) = true.
Proof. destruct k, s; simpl; done || lia. Qed.

Lemma thumb_path_parts id :
  let n := format_08x id in
  let d := take_str (String.length n - 3) n in
  thumb_path id = (d ++ "/" ++ n ++ ".jpg")%string
  ∧ PosixPath.dirname (thumb_path id) = d
  ∧ PosixPath.basename (thumb_path id) = (n ++ ".jpg")%string.
Proof.
  intros n d.
  pose proof (format_08x_no_sep id) as Hn.
  pose proof (format_08x_length id) as Hlen. fold n in Hn, Hlen.
  assert (no_sep d = true) as Hd by (by apply no_sep_take).
  assert (nonempty d = true) as Hnonempty.
  { apply nonempty_take; [lia|]. destruct n; [simpl in Hlen; lia|done]. }
  assert (no_sep (n ++ ".jpg")%string = true) as Hname
    by (by rewrite no_sep_app, Hn).
  assert (thumb_path id = (d ++ "/" ++ n ++ ".jpg")%string) as ->
    by (by apply join_plain).
  split; [done|]. by apply dirname_join.
Qed.

(** X25.  The thumbnail of a photo lies at [d/n.jpg]: [n] is the id in at
    least eight hexadecimal digits, a sign counted among them, and [d] is
    [n] without its last three digits; the id can be read back from [n], so
    no two ids share a thumbnail. *)
Theorem thumb_path_layout id :
  let n := format_08x id in
  let d := take_str (String.length n - 3) n in
  thumb_path id = (d ++ "/" ++ n ++ ".jpg")%string
  ∧ PosixPath.dirname (thumb_path id) = d
  ∧ PosixPath.basename (thumb_path id) = (n ++ ".jpg")%string
  ∧ (8 ≤ String.length n)%nat
  ∧ parse_08x n = Some id
  ∧ (∀ id', thumb_path id' = thumb_path id → id' = id).
Proof.
  intros n d.
  destruct (thumb_path_parts id) as (Hpath & Hdir & Hbase).
  split_and!; try done.
  - apply format_08x_length.
  - apply parse_format_08x.
  - intros id' Hsame.
    destruct (thumb_path_parts id') as (_ & _ & Hbase').
    rewrite Hsame, Hbase in Hbase'. apply append_inj_r in Hbase'.
    pose proof (parse_format_08x id') as Hid'.
    rewrite <- Hbase', parse_format_08x in Hid'. congruence.
Qed.

(** ** The directory of the thumbnail *)

Lemma of_hex_uint_acc_value d acc :
  Z.pos (Pos.of_hex_uint_acc d acc) = hex_value d (Z.pos acc).
Proof.
  revert acc. induction d; intros acc; simpl; try done;
    rewrite IHd; f_equal; lia.
Qed.

Lemma of_hex_uint_value d : Z.of_N (N.of_hex_uint d) = hex_value d 0.
Proof.
  unfold N.of_hex_uint.
  induction d; simpl; try done; by rewrite of_hex_uint_acc_value.
Qed.

Lemma hex_value_bounds d acc :
  0 ≤ acc →
  acc * 16 ^ Z.of_nat (Hexadecimal.nb_digits d) ≤ hex_value d acc
  < (acc + 1) * 16 ^ Z.of_nat (Hexadecimal.nb_digits d).
Proof.
  revert acc.
  induction d; intros acc Hacc; cbn [hex_value Hexadecimal.nb_digits];
    try (rewrite Nat2Z.inj_succ, Z.pow_succ_r by lia);
    [simpl; lia|..];
    match goal with
    | |- _ ≤ hex_value _ ?a < _ => specialize (IHd a ltac:(lia))
    end;
    assert (0 < 16 ^ Z.of_nat (Hexadecimal.nb_digits d))
      by (apply Z.pow_pos_nonneg; lia);
    nia.
Qed.

Lemma length_string_of_hex_uint d :
  String.length (HexadecimalString.NilEmpty.string_of_uint d)
  = Hexadecimal.nb_digits d.
Proof. induction d; simpl; congruence. Qed.

Lemma string_of_hex_take k d :
  HexadecimalString.NilEmpty.string_of_uint (hex_take k d)
  = take_str k (HexadecimalString.NilEmpty.string_of_uint d).
Proof.
  revert d. induction k as [|k IH]; intros d; [by destruct d|].
  destruct d; simpl; by rewrite ?IH.
Qed.

Lemma hex_value_take k d acc :
  0 ≤ acc → (k ≤ Hexadecimal.nb_digits d)%nat →
  ∃ rest,
    0 ≤ rest < 16 ^ Z.of_nat (Hexadecimal.nb_digits d - k)
    ∧ hex_value d acc
      = hex_value (hex_take k d) acc
        * 16 ^ Z.of_nat (Hexadecimal.nb_digits d - k) + rest.
Proof.
  revert d acc. induction k as [|k IH]; intros d acc Hacc Hk.
  - rewrite Nat.sub_0_r. pose proof (hex_value_bounds d acc Hacc).
    exists (hex_value d acc - acc * 16 ^ Z.of_nat (Hexadecimal.nb_digits d)).
    change (hex_value (hex_take 0 d) acc) with acc. lia.
  - destruct d; cbn [Hexadecimal.nb_digits] in *; [lia|..];
      cbn [hex_take hex_value]; rewrite Nat.sub_succ; apply IH; lia.
Qed.

Lemma string_of_iter_D0 k u :
  HexadecimalString.NilEmpty.string_of_uint (Nat.iter k Hexadecimal.D0 u)
  = (zeros k ++ HexadecimalString.NilEmpty.string_of_uint u)%string.
Proof. induction k as [|k IH]; [done|]. simpl. by rewrite IH. Qed.

Lemma hex_value_iter_D0 k u : hex_value (Nat.iter k Hexadecimal.D0 u) 0 = hex_value u 0.
Proof. induction k as [|k IH]; [done|]. simpl. exact IH. Qed.

Lemma parse_08x_digits d :
  d ≠ Hexadecimal.Nil →
  parse_08x (HexadecimalString.NilEmpty.string_of_uint d)
  = Some (hex_value d 0).
Proof.
  intros Hd.
  pose proof (HexadecimalString.NilEmpty.usu d) as Hparse.
  pose proof (of_hex_uint_value d) as Hvalue.
  destruct d; [done|..]; unfold parse_08x;
    cbn [HexadecimalString.NilEmpty.string_of_uint] in *;
    match goal with
    | |- context [Ascii.eqb ?c "-"] => change (Ascii.eqb c "-") with false
    end;
    cbn iota; rewrite Hparse; cbn [fmap option_fmap option_map];
    by rewrite Hvalue.
Qed.

(** X26.  For an id that is not negative the directory of the thumbnail is
    the hexadecimal numeral of the id divided by 4096: the photos of a
    directory are those whose ids have the same quotient, at most 4096 of
    them. *)
Theorem thumb_directory_holds_4096 id :
  0 ≤ id →
  parse_08x (PosixPath.dirname (thumb_path id)) = Some (id / 4096)
  ∧ (∀ id', 0 ≤ id' →
            PosixPath.dirname (thumb_path id')
            = PosixPath.dirname (thumb_path id) →
            id' / 4096 = id / 4096).
Proof.
  assert (Hdir : ∀ i, 0 ≤ i →
            parse_08x (PosixPath.dirname (thumb_path i)) = Some (i / 4096)).
  { clear. intros i Hi.
    destruct (thumb_path_parts i) as (_ & -> & _).
    unfold format_08x, hex. destruct (Z.ltb_spec i 0) as [|_]; [lia|].
    set (u := N.to_hex_uint (Z.to_N i)).
    set (k := (8 - String.length
                     (HexadecimalString.NilEmpty.string_of_uint u))%nat).
    rewrite <- string_of_iter_D0.
    set (U := Nat.iter k Hexadecimal.D0 u).
    assert (hex_value U 0 = i) as Hvalue.
    { unfold U. rewrite hex_value_iter_D0. unfold u.
      rewrite <- of_hex_uint_value, HexadecimalN.Unsigned.of_to. lia. }
    assert (8 ≤ Hexadecimal.nb_digits U)%nat as Hlen.
    { rewrite <- length_string_of_hex_uint. unfold U.
      rewrite string_of_iter_D0, length_append, length_zeros. unfold k. lia. }
    rewrite length_string_of_hex_uint, <- string_of_hex_take.
    set (j := (Hexadecimal.nb_digits U - 3)%nat).
    destruct (hex_value_take j U 0 ltac:(lia) ltac:(lia))
      as (rest & Hrest & Hsplit).
    replace (Hexadecimal.nb_digits U - j)%nat with 3%nat in * by lia.
    change (16 ^ Z.of_nat 3) with 4096 in *.
    assert (hex_value (hex_take j U) 0 = i / 4096) as Hquot
      by (apply (Z.div_unique _ _ _ rest); lia).
    rewrite parse_08x_digits; [by rewrite Hquot|].
    intros Hnil. apply (f_equal Hexadecimal.nb_digits) in Hnil.
    rewrite <- length_string_of_hex_uint, string_of_hex_take in Hnil.
    assert (String.length (take_str j (HexadecimalString.NilEmpty.string_of_uint U)) = j)
      as Htake.
    { rewrite <- (length_string_of_hex_uint U) in Hlen.
      assert (j ≤ String.length (HexadecimalString.NilEmpty.string_of_uint U))%nat
        as Hj by (rewrite length_string_of_hex_uint; lia).
      clear -Hj. revert Hj.
      generalize (HexadecimalString.NilEmpty.string_of_uint U).
      induction j as [|j IH]; intros [|c s] Hj; simpl in *; try done; try lia.
      rewrite IH; [done|lia]. }
    rewrite Htake in Hnil. simpl in Hnil. lia. }
  intros Hid. split; [by apply Hdir|].
  intros id' Hid' Hsame.
  pose proof (Hdir id' Hid') as Hquot'.
  rewrite Hsame, (Hdir id Hid) in Hquot'. congruence.
Qed.

Lemma thumb_directory_holds_4096_witness :
  parse_08x (PosixPath.dirname (thumb_path 74565)) = Some (74565 / 4096).
Proof.
  destruct (thumb_directory_holds_4096 74565) as [Hdir _]; [lia|].
  exact Hdir.
Defined.

(** ** Tags from the path *)

(** The tags of some paths. *)
Lemma create_tags_examples :
  create_tags "/photos/2009/ trip /a.jpg" ["x"%string] 2
  = ["x"; "trip"; "2009"]%string
  ∧ create_tags "/photos/ /a.jpg" [] 1 = []
  ∧ create_tags "a.jpg" ["x"%string] 3 = ["x"%string]
  ∧ create_tags "/photos/2009/a.jpg" ["x"%string] 0 = ["x"%string].
Proof. by vm_compute. Qed.

Lemma add_path_tags_loop_spec parts i n tags :
  0 ≤ i ≤ n →
  add_path_tags_loop i n parts tags
  = tags ++ (strip <$> List.filter nonblank (take (Z.to_nat (n - i)) parts)).
Proof.
  revert i tags. induction parts as [|t parts IH]; intros i tags Hi.
  { simpl. by rewrite take_nil, app_nil_r. }
  cbn [add_path_tags_loop]. destruct (Z.eqb_spec i n) as [->|Hne].
  { by rewrite Z.sub_diag, app_nil_r. }
  rewrite IH by lia.
  replace (Z.to_nat (n - i)) with (S (Z.to_nat (n - (i + 1)))) by lia.
  cbn [take List.filter]. unfold nonblank at 2.
  destruct (nonempty (strip t)); [|done].
  by rewrite fmap_cons, <- app_assoc.
Qed.

Lemma elem_of_filter_strip t parts :
  t ∈ strip <$> List.filter nonblank parts →
  ∃ part, part ∈ parts ∧ nonblank part = true ∧ t = strip part.
Proof.
  intros (part & -> & Hpart)%list_elem_of_fmap.
  apply list_elem_of_In, List.filter_In in Hpart as [Hin Hnonblank].
  exists part. split; [by apply list_elem_of_In|done].
Qed.

Lemma length_filter_le {A} (f : A → bool) l :
  (length (List.filter f l) ≤ length l)%nat.
Proof.
  induction l as [|x l IH]; [done|]. simpl. destruct (f x); simpl; lia.
Qed.

(** X27.  [create] adds to the tags it is given, after them, the names of
    the innermost [add_path_tags] directories of the path, the innermost
    first, each stripped; a name that strips to nothing is left out but
    counted.  At most [add_path_tags] tags are added, none of them empty,
    and none when [add_path_tags] is not positive. *)
Theorem create_tags_of_the_path path tags add_path_tags :
  let parts := rev (PosixPath.split (PosixPath.dirname path)) in
  let added :=
    strip <$> List.filter nonblank (take (Z.to_nat add_path_tags) parts) in
  create_tags path tags add_path_tags = tags ++ added
  ∧ (length added ≤ Z.to_nat add_path_tags)%nat
  ∧ (∀ t, t ∈ added →
          t ≠ ""%string ∧ strip t = t
          ∧ ∃ part, part ∈ PosixPath.split (PosixPath.dirname path)
                    ∧ t = strip part).
Proof.
  intros parts added. split_and!.
  - unfold create_tags. destruct (Z.ltb_spec 0 add_path_tags) as [Hpos|Hnone].
    + rewrite add_path_tags_loop_spec by lia. by rewrite Z.sub_0_r.
    + unfold added. replace (Z.to_nat add_path_tags) with 0%nat by lia.
      by rewrite app_nil_r.
  - unfold added. rewrite length_fmap.
    etransitivity; [apply length_filter_le|]. rewrite length_take. lia.
  - intros t (part & Hpart & Hnonblank & ->)%elem_of_filter_strip.
    split_and!.
    + intros Hempty. unfold nonblank in Hnonblank. by rewrite Hempty in Hnonblank.
    + apply strip_idem.
    + exists part. split; [|done].
      apply subseteq_take in Hpart. unfold parts in Hpart.
      apply list_elem_of_In. apply list_elem_of_In in Hpart.
      by apply in_rev.
Qed.

Lemma split_shape s :
  ∃ x r,
    PosixPath.split s = x :: r
    ∧ last (x :: r) = Some (PosixPath.split_at_last_sep s).2
    ∧ (nonempty (PosixPath.split_at_last_sep s).1 = false ↔ r = []).
Proof.
  induction s as [|c s (x & r & Hsplit & Hlast & Hhead)].
  { by exists ""%string, []. }
  cbn [PosixPath.split PosixPath.split_at_last_sep]. rewrite Hsplit.
  destruct (PosixPath.split_at_last_sep s) as [head tail].
  cbn [fst snd] in *.
  destruct (Ascii.eqb c PosixPath.sep).
  - exists ""%string, (x :: r). split; [done|].
    rewrite last_cons_cons.
    destruct (nonempty head); cbn [fst snd]; by split.
  - exists (String c x), r. split; [done|].
    destruct (nonempty head); cbn [fst snd].
    + destruct r as [|y r]; [by pose proof (proj2 Hhead eq_refl)|].
      rewrite last_cons_cons in *. by split.
    + rewrite (proj1 Hhead eq_refl) in *.
      simpl in Hlast. injection Hlast as ->. by split.
Qed.

Lemma head_reverse_split s :
  take 1 (rev (PosixPath.split s)) = [PosixPath.basename s].
Proof.
  destruct (split_shape s) as (x & r & -> & Hlast & _).
  apply last_Some in Hlast as [l Hl]. rewrite Hl, rev_unit. done.
Qed.

(** X28.  With [add_path_tags] at 1, [create] adds the name of the
    directory of the file, [os.path.basename(os.path.dirname(path))],
    stripped, when it does not strip to nothing: the name that
    [retag --add-path-tag] adds.  Normalised as [retag] normalises, the two
    are the same tags. *)
Theorem path_tag_of_create_and_retag path tags :
  let name := PosixPath.basename (PosixPath.dirname path) in
  create_tags path tags 1
  = tags ++ (if nonblank name then [strip name] else [])
  ∧ Retag.normalize (create_tags path [] 1)
    = Retag.user_tags [] true true path [].
Proof.
  intros name.
  assert (Hone : ∀ tags, create_tags path tags 1
                         = tags ++ (if nonblank name then [strip name] else [])).
  { clear. intros tags. unfold create_tags. simpl (0 <? 1).
    rewrite add_path_tags_loop_spec by lia.
    change (Z.to_nat (1 - 0)) with 1%nat.
    rewrite head_reverse_split. fold name. simpl List.filter.
    by destruct (nonblank name). }
  split; [apply Hone|].
  rewrite Hone.
  change (Retag.user_tags [] true true path []) with (Retag.normalize [name]).
  unfold Retag.normalize, nonblank. cbn [app].
  destruct (nonempty (strip name)) eqn:Hname; cbn [List.filter];
    rewrite ?strip_idem, ?Hname; [|done].
  cbn [fmap list_fmap]. by rewrite strip_idem.
Qed.

(** ** The normalisation of [retag], once more *)

(** The tags stored for a photo in a directory [Trip]. *)
Lemma user_tags_example :
  Retag.user_tags [" New "; "b"]%string true false "/photos/Trip/a.jpg"
    ["b"; "a"]%string
  = ["a"; "b"; "new"; "trip"]%string
  ∧ Retag.user_tags [" New "; "b"]%string false true "/photos/Trip/a.jpg"
      ["b"; "a"]%string
    = ["b"; "new"]%string.
Proof. by vm_compute. Qed.

Lemma string_compare_refl s : String.compare s s = Eq.
Proof.
  induction s as [|c s IH]; [done|]. simpl.
  unfold Ascii.compare. by rewrite N.compare_refl.
Qed.

Lemma string_compare_lt_trans a b c :
  String.compare a b = Lt → String.compare b c = Lt → String.compare a c = Lt.
Proof.
  revert b c. induction a as [|x a IH]; intros [|y b] [|z c]; try done.
  simpl. unfold Ascii.compare.
  destruct (N.compare_spec (N_of_ascii x) (N_of_ascii y)) as [Hxy|Hxy|Hxy];
    destruct (N.compare_spec (N_of_ascii y) (N_of_ascii z)) as [Hyz|Hyz|Hyz];
    try done; intros Hab Hbc.
  - rewrite <- Hyz, <- Hxy, N.compare_refl. by apply (IH b).
  - by rewrite Hxy, (proj2 (N.compare_lt_iff _ _) Hyz).
  - by rewrite <- Hyz, (proj2 (N.compare_lt_iff _ _) Hxy).
  - by rewrite (proj2 (N.compare_lt_iff _ _) (N.lt_trans _ _ _ Hxy Hyz)).
Qed.

#[local] Instance str_le_transitive : Transitive Retag.str_le.
Proof.
  intros a b c [->|Hab] [->|Hbc]; [by left|by right|by right|right].
  unfold String.ltb in *.
  destruct (String.compare a b) eqn:Hab'; try done.
  destruct (String.compare b c) eqn:Hbc'; try done.
  by rewrite (string_compare_lt_trans a b c).
Qed.

#[local] Instance str_le_antisymm : AntiSymm (=) Retag.str_le.
Proof.
  intros a b [->|Hab] [Hba|Hba]; try done.
  unfold String.ltb in *. rewrite String.compare_antisym in Hba.
  by destruct (String.compare a b).
Qed.

#[local] Instance str_le_total : Total Retag.str_le.
Proof.
  intros a b. unfold Retag.str_le, String.ltb.
  rewrite (String.compare_antisym b a).
  destruct (String.compare a b) eqn:Hab; simpl; auto.
  left. left. by apply String.compare_eq_iff.
Qed.

Lemma strictly_sorted l :
  StronglySorted Retag.str_le l → NoDup l →
  StronglySorted (λ s t, String.ltb s t = true) l.
Proof.
  induction 1 as [|x l Hl IH Hall]; intros Hnodup; constructor.
  - apply IH. by apply NoDup_cons in Hnodup as [_ ?].
  - apply NoDup_cons in Hnodup as [Hx _].
    rewrite Forall_forall in *. intros y Hy.
    destruct (Hall y Hy) as [->|Hlt]; [done|exact Hlt].
Qed.

Lemma normalize_ext tags1 tags2 :
  (∀ t, t ∈ Retag.normalize tags1 ↔ t ∈ Retag.normalize tags2) →
  Retag.normalize tags1 = Retag.normalize tags2.
Proof.
  intros Hsame. apply (Sorted_unique Retag.str_le).
  - apply Sorted_merge_sort, _.
  - apply Sorted_merge_sort, _.
  - apply NoDup_Permutation; [apply normalize_NoDup..|done].
Qed.

Lemma normalize_same_elements tags1 tags2 :
  (∀ t, t ∈ tags1 ↔ t ∈ tags2) →
  Retag.normalize tags1 = Retag.normalize tags2.
Proof.
  intros Hsame. apply normalize_ext. intros t. rewrite !elem_of_normalize.
  split; intros (raw & Hraw & Hrest); exists raw; by rewrite Hsame in *.
Qed.

Lemma elem_of_normalize_normalize tags t :
  t ∈ Retag.normalize (Retag.normalize tags) ↔ t ∈ Retag.normalize tags.
Proof.
  rewrite (elem_of_normalize (Retag.normalize tags)). split.
  - intros (raw & Hraw & _ & ->).
    apply elem_of_normalize in Hraw as (raw' & Hraw' & Hnonempty & ->).
    destruct (normal_lower_strip raw') as [Hlower Hstrip].
    rewrite Hstrip, Hlower. apply elem_of_normalize. by exists raw'.
  - intros Ht. exists t. split; [done|].
    apply elem_of_normalize in Ht as (raw & _ & Hnonempty & ->).
    destruct (normal_lower_strip raw) as [Hlower Hstrip].
    rewrite Hstrip, Hlower. by rewrite lower_nonempty.
Qed.

(** X29.  The user tags that [retag] stores are in strictly ascending
    order, and they depend on the tags of the photo and on the tags to add
    as sets only: neither the order in which the set of the photo gives its
    tags nor a tag given twice changes the result. *)
Theorem user_tags_are_canonical add add_path_tag replace path old :
  StronglySorted (λ s t, String.ltb s t = true)
    (Retag.user_tags add add_path_tag replace path old)
  ∧ (∀ add' old',
       (∀ t, t ∈ add ↔ t ∈ add') → (∀ t, t ∈ old ↔ t ∈ old') →
       Retag.user_tags add' add_path_tag replace path old'
       = Retag.user_tags add add_path_tag replace path old).
Proof.
  split.
  - apply strictly_sorted; [|apply normalize_NoDup].
    apply StronglySorted_merge_sort; apply _.
  - intros add' old' Hadd Hold. unfold Retag.user_tags.
    apply normalize_same_elements. intros t.
    destruct add_path_tag, replace; cbn [negb];
      rewrite ?elem_of_app, ?Hadd, ?Hold; done.
Qed.

(** X30.  Tags that went through the normalisation pass through it
    unchanged: normalising twice is normalising once, and [retag] without
    [--replace] gives the same for the tags of the photo and for their
    normal forms. *)
Theorem normalisation_is_idempotent add add_path_tag path old :
  Retag.normalize (Retag.normalize old) = Retag.normalize old
  ∧ Retag.user_tags add add_path_tag false path (Retag.normalize old)
    = Retag.user_tags add add_path_tag false path old.
Proof.
  split.
  - apply normalize_ext. intros t.
    by rewrite elem_of_normalize_normalize.
  - unfold Retag.user_tags. cbn [negb]. apply normalize_ext. intros t.
    rewrite !elem_of_normalize.
    split; intros (raw & Hraw & Hnonempty & ->);
      apply elem_of_app in Hraw as [Hraw|Hraw].
    + exists raw. split; [apply elem_of_app; by left|done].
    + apply elem_of_normalize in Hraw as (raw' & Hraw' & Hnonempty' & ->).
      destruct (normal_lower_strip raw') as [Hlower Hstrip].
      exists raw'. rewrite Hstrip, Hlower.
      split; [apply elem_of_app; by right|done].
    + exists raw. split; [apply elem_of_app; by left|done].
    + exists (lower (strip raw)).
      destruct (normal_lower_strip raw) as [Hlower Hstrip].
      rewrite Hstrip, Hlower, lower_nonempty.
      split; [|done]. apply elem_of_app. right.
      apply elem_of_normalize. by exists raw.
Qed.

Lemma user_tags_are_canonical_witness :
  Retag.user_tags ["b"; " New "; "b"]%string true false "/photos/Trip/a.jpg"
    ["a"; "b"]%string
  = Retag.user_tags [" New "; "b"]%string true false "/photos/Trip/a.jpg"
      ["b"; "a"; "a"]%string.
Proof.
  destruct (user_tags_are_canonical [" New "; "b"]%string true false
              "/photos/Trip/a.jpg" ["b"; "a"; "a"]%string) as [_ Hsame].
  apply Hsame; intros t; rewrite !elem_of_cons, !elem_of_nil; tauto.
Defined.
